(** * The SQL front-end and query executor (SqlParser.cpp, SqlParser.hpp)

    A shallow embedding of the statement callbacks of the session facade
    and of its result merger, and the properties of them that the
    specification states.  The storage engine, the scanner and the
    generated parser are collaborators whose code is elsewhere: they enter
    as interfaces ([DB_ENGINE.DBEngine], [SqlParser.Grammar]).  An engine
    call that raises aborts the statement it occurs in; the results below
    are about statements whose engine calls return. *)

From stdpp Require Import gmap strings list fin_maps.
From Stdlib Require Import ZArith.

Local Open Scope string_scope.
Local Open Scope Z_scope.
Local Open Scope list_scope.

(** ** Data model *)

(** [enum Comp], with the enumerators that [SqlParser::select] switches on. *)
Inductive Comp : Type := L | LE | G | GE | EQUAL.

#[global] Instance Comp_eq_dec : EqDecision Comp.
Proof. solve_decision. Defined.

(** Modelled from the spec: the column types of [column_t::type] (the enum
    [Type] is declared with the grammar); the executor only forwards them. *)
Inductive Type_ : Type := INT | FLOAT | VARCHAR (n : N) | BOOL.

(** Modelled from the spec: [Record], an ordered tuple of field values held
    as text; equality is field-wise. *)
Abbreviation Record_t := (list string).

(** [query_time_t]: stage name to duration (a tick count). *)
Abbreviation query_time_t := (gmap string Z).

(** [struct column_t] of the grammar, as [create_table] reads it. *)
Record column_t : Type := mk_column {
  name : string;
  type : Type_;
  is_pk : bool
}.

(** [struct condition_t] of the grammar, as [select] and [remove] read it. *)
Record condition_t : Type := mk_condition {
  column_name : string;
  c : Comp;
  value : string
}.

(** A default-constructed [condition_t]: both strings are empty.  The
    comparison operator of a default-constructed value is never read (see
    [select_or_step]: it is read only once [column_name] is non-empty, that
    is after an assignment from a parsed condition). *)
Definition condition_default : condition_t := mk_condition "" EQUAL "".

(** [std::function<bool(const Record&)>]; [None] is the empty function
    object [{}] (and an omitted defaulted argument). *)
Definition pred_t : Type := option (Record_t → bool).

Module DB_ENGINE.

(** [struct Attribute {name, value}]. *)
Record Attribute : Type := mk_attribute {
  name : string;
  value : string
}.

Record QueryResponse : Type := mk_response {
  records : list Record_t;
  query_times : query_time_t
}.

(** A default-constructed [QueryResponse]. *)
Definition QueryResponse_default : QueryResponse := mk_response [] ∅.

(** The operations of [DBEngine] that the executor calls, over an engine
    state [E].  Look-ups read the state; queries and updates return the
    state they leave behind.  [KEY_MIN] and [KEY_MAX] are the constants
    [KEY_LIMITS::MIN] and [KEY_LIMITS::MAX]. *)
Class DBEngine (E : Type) : Type := {
  Index_t : Type;
  KEY_MIN : Attribute;
  KEY_MAX : Attribute;
  RecordHash : Record_t → Z;
  is_table : E → string → bool;
  get_table_names : E → list string;
  get_table_attributes : E → string → list string;
  sort_attributes : E → string → list string → list string;
  get_indexes_names : E → string → list string;
  get_comparator : E → string → Comp → string → string → Record_t → bool;
  create_table : E → string → string → list Type_ → list string → E;
  create_index : E → string → string → Index_t → E;
  load : E → string → list string → pred_t → QueryResponse * E;
  search : E → string → Attribute → pred_t → list string → QueryResponse * E;
  range_search :
    E → string → Attribute → Attribute → pred_t → list string →
    QueryResponse * E;
  add : E → string → list string → E;
  csv_insert : E → string → string → E;
  remove : E → string → Attribute → E;
  drop_table : E → string → E
}.

End DB_ENGINE.

(** ** [std::unordered_set<Record, RecordHash>]

    Buckets keyed by the hash; within a bucket the elements are compared
    with [==]. *)
Section unordered_set.
Context {A : Type} `{EqDecision A} (hash : A → Z).

Definition bucket (s : gmap Z (list A)) (x : A) : list A :=
  default [] (s !! hash x).

(** [s.find(x) != s.end()] *)
Definition uset_find (x : A) (s : gmap Z (list A)) : bool :=
  bool_decide (x ∈ bucket s x).

(** [s.insert(x)]: no effect when an equal element is present. *)
Definition uset_insert (x : A) (s : gmap Z (list A)) : gmap Z (list A) :=
  if uset_find x s then s else <[hash x := x :: bucket s x]> s.

(** The range constructor [unordered_set(first, last)]. *)
Definition uset_of_range (l : list A) : gmap Z (list A) :=
  foldl (λ s x, uset_insert x s) ∅ l.

(** The set [s] holds the elements of the list [l]. *)
Definition holds_elements (s : gmap Z (list A)) (l : list A) : Prop :=
  ∀ x, x ∈ bucket s x ↔ x ∈ l.

End unordered_set.

(** ** Result merger *)

Section merger.
Context (RecordHash : Record_t → Z).

(** One round of the loop of [merge_records] over [vec2]. *)
Definition merge_step (acc : list Record_t * gmap Z (list Record_t))
    (element : Record_t) : list Record_t * gmap Z (list Record_t) :=
  let '(response, unique_elements) := acc in
  if uset_find RecordHash element unique_elements
  then (response, unique_elements)
  else (response ++ [element], uset_insert RecordHash element unique_elements).

Definition merge_records (vec1 vec2 : list Record_t) : list Record_t :=
  let response := [] ++ vec1 in
  let unique_elements := uset_of_range RecordHash vec1 in
  fst (foldl merge_step (response, unique_elements) vec2).

End merger.

(** [times_1.insert(times_2.begin(), times_2.end())]: each entry of
    [times_2] is inserted unless its key is already present. *)
Definition insert_if_absent (k : string) (v : Z) (m : gmap string Z)
    : gmap string Z :=
  match m !! k with
  | Some _ => m
  | None => <[k := v]> m
  end.

Definition merge_times (times_1 times_2 : gmap string Z) : gmap string Z :=
  map_fold insert_if_absent times_1 times_2.

(** The elements of a list at their first occurrence, in order. *)
Fixpoint first_occurrences {A : Type} `{EqDecision A} (l : list A) : list A :=
  match l with
  | [] => []
  | x :: l' => x :: filter (λ y, y ≠ x) (first_occurrences l')
  end.

(** ** Response, stream and session *)

(** [struct ParserResponse]; [code] is 200 in a fresh response. *)
Record ParserResponse : Type := mk_parser_response {
  records : list Record_t;
  query_times : query_time_t;
  column_names : list string;
  table_names : list string;
  error : string;
  code : Z
}.

Definition ParserResponse_default : ParserResponse :=
  mk_parser_response [] ∅ [] [] "" 200.

Definition ParserResponse_clear (r : ParserResponse) : ParserResponse :=
  mk_parser_response [] ∅ [] [] (error r) (code r).

Definition failed (r : ParserResponse) : bool := negb (code r =? 200).

(** The state of a [std::istream] that [parse] reads: the three bits of its
    [iostate] and the characters still to be read. *)
Record istream : Type := mk_istream {
  badbit : bool;
  failbit : bool;
  eofbit : bool;
  pending : string
}.

(** [good()]: no bit is set.  [eof()]: [eofbit] is set.  [fail()]:
    [failbit] or [badbit] is set. *)
Definition good (stream : istream) : bool :=
  negb (badbit stream || failbit stream || eofbit stream).
Definition eof (stream : istream) : bool := eofbit stream.
Definition fail (stream : istream) : bool := failbit stream || badbit stream.

(** [new scanner(&stream)] and [new yy::parser] on that scanner and this
    session: the handles record what they are bound to. *)
Record scanner : Type := new_scanner { yyin : istream }.
Record yy_parser : Type := new_parser { yy_scanner : scanner }.

Definition ACCEPT : Z := 0.

(** [std::size_t] subtraction: the difference wraps around (a 64-bit
    [size_t]). *)
Definition size_t_sub (a b : Z) : Z := (a - b) mod 2 ^ 64.

(** [s.substr(pos, count)]: it throws [std::out_of_range] ([None]) when
    [pos > s.size()]; otherwise it is the [min(count, size - pos)]
    characters of [s] from position [pos] on. *)
Definition substr (s : string) (pos count : Z) : option string :=
  let size := Z.of_nat (String.length s) in
  if size <? pos then None
  else
    Some (String.substring (Z.to_nat pos)
            (Z.to_nat (Z.min count (size - pos))) s).

(** [std::ifstream in_file(filename)]: the stream as the constructor leaves
    it for a path ([failbit] is set when the file could not be opened). *)
Class FileSystem : Type := {
  ifstream : string → istream
}.

Definition EXIT_FAILURE : Z := 1.

Module SqlParser.

(** The members of [class SqlParser]. *)
Record t (E : Type) : Type := mk {
  m_engine : E;
  m_parser_response : ParserResponse;
  m_tablenames : gset string;
  m_parser : option yy_parser;
  m_sc : option scanner
}.
Arguments mk {E} _ _ _ _ _.
Arguments m_engine {E} _.
Arguments m_parser_response {E} _.
Arguments m_tablenames {E} _.
Arguments m_parser {E} _.
Arguments m_sc {E} _.

(** How a member function ends: it returns (with the session it leaves),
    it throws [std::runtime_error(what)] (the session keeps what was done
    before the throw), or its behaviour is undefined. *)
Inductive outcome (E A : Type) : Type :=
| Returns (a : A) (s : t E)
| Throws (what : string) (s : t E)
| Undefined.
Arguments Returns {E A} _ _.
Arguments Throws {E A} _ _.
Arguments Undefined {E A}.

(** How a call that may end the process ends: like a member function, by
    [exit(status)], or by a failed [assert]. *)
Inductive run (E A : Type) : Type :=
| Ends (o : outcome E A)
| Exits (status : Z)
| Aborts.
Arguments Ends {E A} _.
Arguments Exits {E A} _.
Arguments Aborts {E A}.

(** [yy::parser::parse()] of the generated parser, bound to a scanner and
    to the session it calls back into: its return code and the session
    after the callbacks it made. *)
Class Grammar (E : Type) : Type := {
  yyparse : scanner → t E → outcome E Z
}.

(** Control leaves a round of a [for] loop by falling through or by
    [break]. *)
Inductive loop_ctl : Type := Continue | Break.

Section session.
Context {E : Type} `{!DB_ENGINE.DBEngine E}.

Definition set_engine (s : t E) (e : E) : t E :=
  mk e (m_parser_response s) (m_tablenames s) (m_parser s) (m_sc s).

Definition set_parser_response (s : t E) (r : ParserResponse) : t E :=
  mk (m_engine s) r (m_tablenames s) (m_parser s) (m_sc s).

Definition set_sc (s : t E) (sc : scanner) : t E :=
  mk (m_engine s) (m_parser_response s) (m_tablenames s) (m_parser s) (Some sc).

Definition set_parser (s : t E) (p : yy_parser) : t E :=
  mk (m_engine s) (m_parser_response s) (m_tablenames s) (Some p) (m_sc s).

Definition clear (s : t E) : t E :=
  set_parser_response s (ParserResponse_clear (m_parser_response s)).

(** [std::ranges::find(l, x) != l.end()] *)
Definition found (l : list string) (x : string) : bool := bool_decide (x ∈ l).

Definition check_table_name (tablename : string) (s : t E)
    : outcome E unit :=
  if negb (DB_ENGINE.is_table (m_engine s) tablename)
  then Throws "Table doesn't exists" s
  else Returns tt s.

(** One round of the loop of [create_table] over [columns]. *)
Definition create_table_step (acc : string * list Type_ * list string)
    (col : column_t) : string * list Type_ * list string :=
  let '(primary_key, col_types, col_names) := acc in
  (if is_pk col then name col else primary_key,
   col_types ++ [type col],
   col_names ++ [name col]).

Definition create_table (tablename : string) (columns : list column_t)
    (s : t E) : outcome E unit :=
  let '(primary_key, col_types, col_names) :=
    foldl create_table_step ("", [], []) columns in
  Returns tt
    (set_engine s
       (DB_ENGINE.create_table (m_engine s) tablename primary_key
          col_types col_names)).

Definition create_index (tablename column_name : string)
    (index_name : DB_ENGINE.Index_t) (s : t E) : outcome E unit :=
  if negb (DB_ENGINE.is_table (m_engine s) tablename)
  then Throws "Table doesn't exists" s
  else
    let attributes := DB_ENGINE.get_table_attributes (m_engine s) tablename in
    if negb (found attributes column_name)
    then Throws "Column doesn't exists" s
    else
      Returns tt
        (set_engine s
           (DB_ENGINE.create_index (m_engine s) tablename column_name
              index_name)).

Definition query_to_output (query_response : DB_ENGINE.QueryResponse)
    (sorted_column_names : list string) (s : t E) : t E :=
  set_parser_response s
    (mk_parser_response
       (DB_ENGINE.records query_response)
       (DB_ENGINE.query_times query_response)
       sorted_column_names
       (DB_ENGINE.get_table_names (m_engine s))
       (error (m_parser_response s))
       (code (m_parser_response s))).

(** One round of the inner loop of [select], over the conditions of one
    AND-group: a condition on a column without index adds its comparator; a
    condition on an indexed column becomes the key while the key's column
    name is empty; any other condition changes nothing. *)
Definition select_and_step (e : E) (tablename : string)
    (acc : condition_t * list (Record_t → bool))
    (column_constraint : condition_t)
    : condition_t * list (Record_t → bool) :=
  let '(constraint_key, lambdas) := acc in
  let indexes := DB_ENGINE.get_indexes_names e tablename in
  if negb (found indexes (column_name column_constraint)) then
    let record_comp :=
      DB_ENGINE.get_comparator e tablename (c column_constraint)
        (column_name column_constraint) (value column_constraint) in
    (constraint_key, lambdas ++ [record_comp])
  else if String.eqb (column_name constraint_key) "" then
    (column_constraint, lambdas)
  else (constraint_key, lambdas).

Definition select_and_loop (e : E) (tablename : string)
    (or_constraint : list condition_t)
    : condition_t * list (Record_t → bool) :=
  foldl (select_and_step e tablename) (condition_default, []) or_constraint.

Definition joined_lambdas (lambdas : list (Record_t → bool))
    : Record_t → bool :=
  λ rec, forallb (λ single_lambda, single_lambda rec) lambdas.

(** The engine call of a round whose key is set. *)
Definition index_query (e : E) (tablename : string)
    (constraint_key : condition_t) (joined : Record_t → bool)
    (sorted_column_names : list string) : DB_ENGINE.QueryResponse * E :=
  if decide (c constraint_key = EQUAL) then
    DB_ENGINE.search e tablename
      (DB_ENGINE.mk_attribute (column_name constraint_key)
         (value constraint_key))
      (Some joined) sorted_column_names
  else
    let begin_key := DB_ENGINE.KEY_MIN in
    let end_key := DB_ENGINE.KEY_MAX in
    let '(begin_key, end_key) :=
      match c constraint_key with
      | L | LE =>
          (begin_key,
           DB_ENGINE.mk_attribute (column_name constraint_key)
             (value constraint_key))
      | G | GE =>
          (DB_ENGINE.mk_attribute (column_name constraint_key)
             (value constraint_key),
           end_key)
      | EQUAL => (begin_key, end_key)
      end in
    DB_ENGINE.range_search e tablename begin_key end_key (Some joined)
      sorted_column_names.

(** One round of the outer loop of [select], over the AND-groups. *)
Definition select_or_step (e : E) (tablename : string)
    (sorted_column_names : list string)
    (query_response : DB_ENGINE.QueryResponse)
    (or_constraint : list condition_t)
    : loop_ctl * DB_ENGINE.QueryResponse * E :=
  let '(constraint_key, lambdas) :=
    select_and_loop e tablename or_constraint in
  let joined := joined_lambdas lambdas in
  if String.eqb (column_name constraint_key) "" then
    let '(loaded, e') :=
      DB_ENGINE.load e tablename sorted_column_names (Some joined) in
    (Break, loaded, e')
  else
    let '(or_response, e') :=
      index_query e tablename constraint_key joined sorted_column_names in
    let times :=
      merge_times (DB_ENGINE.query_times query_response)
        (DB_ENGINE.query_times or_response) in
    let recs :=
      merge_records DB_ENGINE.RecordHash
        (DB_ENGINE.records query_response)
        (DB_ENGINE.records or_response) in
    (Continue, DB_ENGINE.mk_response recs times, e').

(** The outer loop; it also tells whether it was left by [break]. *)
Fixpoint select_or_loop (e : E) (tablename : string)
    (sorted_column_names : list string)
    (query_response : DB_ENGINE.QueryResponse)
    (constraints : list (list condition_t))
    : loop_ctl * DB_ENGINE.QueryResponse * E :=
  match constraints with
  | [] => (Continue, query_response, e)
  | or_constraint :: rest =>
      match select_or_step e tablename sorted_column_names query_response
              or_constraint with
      | (Break, query_response', e') => (Break, query_response', e')
      | (Continue, query_response', e') =>
          select_or_loop e' tablename sorted_column_names query_response'
            rest
      end
  end.

(** The check that every selected column is an attribute of the table. *)
Definition some_column_missing (table_attributes cols : list string) : bool :=
  existsb (λ col, negb (found table_attributes col)) cols.

Definition select (tablename : string) (column_names : list string)
    (constraints : list (list condition_t)) (s : t E) : outcome E unit :=
  let sorted_column_names :=
    DB_ENGINE.sort_attributes (m_engine s) tablename column_names in
  let table_attributes :=
    DB_ENGINE.get_table_attributes (m_engine s) tablename in
  if some_column_missing table_attributes sorted_column_names then
    Throws "Column doesn't exists" s
  else
    match constraints with
    | [] =>
        let '(query_response, e') :=
          DB_ENGINE.load (m_engine s) tablename sorted_column_names None in
        Returns tt
          (query_to_output query_response sorted_column_names
             (set_engine s e'))
    | _ :: _ =>
        let '(_, query_response, e') :=
          select_or_loop (m_engine s) tablename sorted_column_names
            DB_ENGINE.QueryResponse_default constraints in
        Returns tt
          (query_to_output query_response sorted_column_names
             (set_engine s e'))
    end.

(** The vector built from the range [values.rbegin(), values.rend()): the
    reverse iterator at distance [i] from [rbegin()] designates
    [values[size - 1 - i]]; [n] is the number of elements still to copy. *)
Fixpoint copy_reverse_range (values : list string) (n : nat) : list string :=
  match n with
  | O => []
  | S k =>
      match values !! k with
      | Some v => v :: copy_reverse_range values k
      | None => copy_reverse_range values k
      end
  end.

Definition insert (tablename : string) (values : list string) (s : t E)
    : outcome E unit :=
  Returns tt
    (set_engine s
       (DB_ENGINE.add (m_engine s) tablename
          (copy_reverse_range values (length values)))).

(** [constraint.front().front()] is undefined on an empty list. *)
Definition remove (tablename : string)
    (constraint : list (list condition_t)) (s : t E) : outcome E unit :=
  match constraint with
  | (unique_condition :: _) :: _ =>
      let key :=
        DB_ENGINE.mk_attribute (column_name unique_condition)
          (value unique_condition) in
      Returns tt
        (set_engine s (DB_ENGINE.remove (m_engine s) tablename key))
  | _ => Undefined
  end.

Definition drop_table (tablename : string) (s : t E) : outcome E unit :=
  Returns tt (set_engine s (DB_ENGINE.drop_table (m_engine s) tablename)).

(** [sort_attributes] takes the column list by reference to const (it is
    given one in [select]) and returns the sorted list; here what it
    returns is dropped, and [sorted_column_names] stays the copy of
    [column_names]. *)
Definition select_between (tablename : string) (column_names : list string)
    (id val1 val2 : string) (s : t E) : outcome E unit :=
  let sorted_column_names := column_names in
  let _ :=
    DB_ENGINE.sort_attributes (m_engine s) tablename sorted_column_names in
  let table_attributes :=
    DB_ENGINE.get_table_attributes (m_engine s) tablename in
  if some_column_missing table_attributes sorted_column_names then
    Throws "Column doesn't exists" s
  else
    let begin_key := DB_ENGINE.mk_attribute id val1 in
    let end_key := DB_ENGINE.mk_attribute id val2 in
    let '(query_response, e') :=
      DB_ENGINE.range_search (m_engine s) tablename begin_key end_key None
        sorted_column_names in
    Returns tt
      (query_to_output query_response sorted_column_names
         (set_engine s e')).

(** [insert_from_file]; [None] when [substr] throws [std::out_of_range],
    which happens before the engine is called. *)
Definition insert_from_file (tablename filename : string) (s : t E)
    : option (outcome E unit) :=
  file_name ←
    substr filename 1 (size_t_sub (Z.of_nat (String.length filename)) 2);
  Some
    (Returns tt
       (set_engine s
          (DB_ENGINE.csv_insert (m_engine s) tablename file_name))).

(** Vocabulary of the statements about [select]: whether the column of a
    condition has an index, the comparator the engine gives for a
    condition, and the primary key that [create_table] hands over. *)
Definition indexed (e : E) (tablename : string) (cond : condition_t) : Prop :=
  column_name cond ∈ DB_ENGINE.get_indexes_names e tablename.

#[global] Instance indexed_dec (e : E) (tablename : string)
    (cond : condition_t) : Decision (indexed e tablename cond).
Proof. unfold indexed. apply _. Defined.

Definition comparator_of (e : E) (tablename : string) (cond : condition_t)
    : Record_t → bool :=
  DB_ENGINE.get_comparator e tablename (c cond) (column_name cond)
    (value cond).

(** The residual predicate that the code builds for an AND-group: the
    conjunction of the comparators of its conditions on columns without
    index. *)
Definition residual (e : E) (tablename : string)
    (or_constraint : list condition_t) : Record_t → bool :=
  joined_lambdas
    (comparator_of e tablename
       <$> filter (λ cond, ¬ indexed e tablename cond) or_constraint).

(** The running response after a round that merged [or_response] in. *)
Definition merged (query_response or_response : DB_ENGINE.QueryResponse)
    : DB_ENGINE.QueryResponse :=
  DB_ENGINE.mk_response
    (merge_records DB_ENGINE.RecordHash
       (DB_ENGINE.records query_response) (DB_ENGINE.records or_response))
    (merge_times (DB_ENGINE.query_times query_response)
       (DB_ENGINE.query_times or_response)).

Definition last_primary_key (columns : list column_t) : string :=
  from_option name "" (last (filter (λ col, is_pk col = true) columns)).

Context `{!Grammar E}.

Definition parse_helper (stream : istream) (s : t E) : outcome E unit :=
  let sc := new_scanner stream in
  let s := set_sc s sc in
  let s := set_parser s (new_parser sc) in
  match yyparse sc s with
  | Returns rc s' =>
      if negb (rc =? ACCEPT) then Throws "Parsing failed" s'
      else Returns tt s'
  | Throws what s' => Throws what s'
  | Undefined => Undefined
  end.

(** [parse(std::istream &)]; what it returns is the session's response. *)
Definition parse (stream : istream) (s : t E) : outcome E ParserResponse :=
  if negb (good stream) && eof stream then Returns (m_parser_response s) s
  else
    match parse_helper stream s with
    | Returns _ s' => Returns (m_parser_response s') s'
    | Throws what s' => Throws what s'
    | Undefined => Undefined
    end.

(** The overload of [parse] that takes a file name; [None] is the null
    pointer, on which the [assert] fails. *)
Definition parse_file `{!FileSystem} (filename : option string) (s : t E)
    : run E unit :=
  match filename with
  | None => Aborts
  | Some path =>
      let in_file := ifstream path in
      if negb (good in_file) then Exits EXIT_FAILURE
      else Ends (parse_helper in_file s)
  end.

End session.
End SqlParser.

(** ** A mock engine

    One table of text fields held in memory; every query and update is
    appended to a log of calls.  It serves as the concrete engine of the
    examples. *)
Module Mock.

Inductive call : Type :=
| Load (tablename : string) (cols : list string) (filtered : bool)
| Search (tablename : string) (key : DB_ENGINE.Attribute) (cols : list string)
| RangeSearch (tablename : string) (lo hi : DB_ENGINE.Attribute)
    (cols : list string)
| Add (tablename : string) (values : list string)
| Remove (tablename : string) (key : DB_ENGINE.Attribute)
| CreateTable (tablename primary_key : string) (types : list Type_)
    (names : list string)
| CreateIndex (tablename column : string)
| CsvInsert (tablename path : string)
| DropTable (tablename : string).

Record engine : Type := mk_engine {
  schema : list string;
  indexes : list string;
  rows : list Record_t;
  calls : list call
}.

Definition log (e : engine) (k : call) : engine :=
  mk_engine (schema e) (indexes e) (rows e) (calls e ++ [k]).

Definition key_min : DB_ENGINE.Attribute := DB_ENGINE.mk_attribute "" "-inf".
Definition key_max : DB_ENGINE.Attribute := DB_ENGINE.mk_attribute "" "+inf".

Fixpoint position (col : string) (cols : list string) : option nat :=
  match cols with
  | [] => None
  | x :: cols' =>
      if String.eqb x col then Some O else S <$> position col cols'
  end.

Definition field (e : engine) (col : string) (rec : Record_t) : option string :=
  i ← position col (schema e); rec !! i.

Definition compare_with (op : Comp) (v w : string) : bool :=
  match op with
  | L => String.ltb v w
  | LE => String.leb v w
  | G => String.ltb w v
  | GE => String.leb w v
  | EQUAL => String.eqb v w
  end.

Definition comparator (e : engine) (tablename : string) (op : Comp)
    (col val : string) (rec : Record_t) : bool :=
  match field e col rec with
  | Some v => compare_with op v val
  | None => false
  end.

Definition holds (p : pred_t) (rec : Record_t) : bool :=
  match p with
  | Some f => f rec
  | None => true
  end.

Definition in_range (e : engine) (lo hi : DB_ENGINE.Attribute)
    (rec : Record_t) : bool :=
  (String.eqb (DB_ENGINE.name lo) ""
   || comparator e "" GE (DB_ENGINE.name lo) (DB_ENGINE.value lo) rec)
  && (String.eqb (DB_ENGINE.name hi) ""
      || comparator e "" LE (DB_ENGINE.name hi) (DB_ENGINE.value hi) rec).

Definition hash (rec : Record_t) : Z := Z.of_nat (length rec).

Definition keep (f : Record_t → bool) (l : list Record_t) : list Record_t :=
  List.filter f l.

#[global] Instance mock_engine : DB_ENGINE.DBEngine engine := {|
  DB_ENGINE.Index_t := unit;
  DB_ENGINE.KEY_MIN := key_min;
  DB_ENGINE.KEY_MAX := key_max;
  DB_ENGINE.RecordHash := hash;
  DB_ENGINE.is_table := λ e tablename, String.eqb tablename "t";
  DB_ENGINE.get_table_names := λ e, ["t"];
  DB_ENGINE.get_table_attributes := λ e tablename, schema e;
  DB_ENGINE.sort_attributes := λ e tablename cols,
    List.filter (λ a, bool_decide (a ∈ cols)) (schema e);
  DB_ENGINE.get_indexes_names := λ e tablename, indexes e;
  DB_ENGINE.get_comparator := comparator;
  DB_ENGINE.create_table := λ e tablename pk types names,
    log e (CreateTable tablename pk types names);
  DB_ENGINE.create_index := λ e tablename col kind,
    log e (CreateIndex tablename col);
  DB_ENGINE.load := λ e tablename cols p,
    (DB_ENGINE.mk_response (keep (holds p) (rows e)) {[ "load" := 1 ]},
     log e (Load tablename cols (bool_decide (is_Some p))));
  DB_ENGINE.search := λ e tablename key p cols,
    (DB_ENGINE.mk_response
       (keep (λ rec, comparator e tablename EQUAL (DB_ENGINE.name key)
                       (DB_ENGINE.value key) rec && holds p rec) (rows e))
       {[ "search" := 2 ]},
     log e (Search tablename key cols));
  DB_ENGINE.range_search := λ e tablename lo hi p cols,
    (DB_ENGINE.mk_response
       (keep (λ rec, in_range e lo hi rec && holds p rec) (rows e))
       {[ "range_search" := 3 ]},
     log e (RangeSearch tablename lo hi cols));
  DB_ENGINE.add := λ e tablename values, log e (Add tablename values);
  DB_ENGINE.csv_insert := λ e tablename path, log e (CsvInsert tablename path);
  DB_ENGINE.remove := λ e tablename key, log e (Remove tablename key);
  DB_ENGINE.drop_table := λ e tablename, log e (DropTable tablename)
|}.

(** A grammar that accepts at once and makes no callback. *)
#[global] Instance accept_all : SqlParser.Grammar engine := {|
  SqlParser.yyparse := λ sc s, SqlParser.Returns ACCEPT s
|}.

(** Table [t(id, name, age)] with indexes on [id] and [age]. *)
Definition people : engine :=
  mk_engine ["id"; "name"; "age"] ["id"; "age"]
    [["1"; "ann"; "30"]; ["2"; "bob"; "25"]; ["3"; "cy"; "30"]] [].

Definition session0 : SqlParser.t engine :=
  SqlParser.mk people ParserResponse_default ∅ None None.

End Mock.

(** A file system with one file, [empty.sql], that opens in good state;
    [at_end.sql] opens with [eofbit] set and any other path fails to
    open. *)
Module MockFS.

#[global] Instance one_file : FileSystem := {|
  ifstream := λ path,
    if String.eqb path "empty.sql" then mk_istream false false false ""
    else if String.eqb path "at_end.sql" then mk_istream false false true ""
    else mk_istream false true false ""
|}.

End MockFS.

(** * Properties *)

(** ** Result merger *)

Lemma merge_times_union (T1 T2 : gmap string Z) :
  merge_times T1 T2 = T1 ∪ T2.
Proof.
  unfold merge_times.
  apply (map_fold_weak_ind (λ r m, r = T1 ∪ m)).
  - by rewrite (right_id_L ∅ (∪)).
  - intros k v m r Hk ->. unfold insert_if_absent.
    destruct ((T1 ∪ m) !! k) as [w|] eqn:Hl.
    + apply lookup_union_Some_raw in Hl as [Hl|[_ Hl]]; [|congruence].
      apply map_eq; intros j. rewrite !lookup_union.
      destruct (decide (k = j)) as [<-|Hne].
      * by rewrite Hl, lookup_insert_eq, Hk.
      * by rewrite lookup_insert_ne.
    + apply lookup_union_None in Hl as [Hl _].
      by rewrite insert_union_r.
Qed.

(** C3 (as stated, refuted): on a key that both maps hold, the merged map
    has the value of the first map, not the value of the second. *)
Lemma merge_times_collision_first_stays :
  let T1 : gmap string Z := {[ "load" := 1 ]} in
  let T2 : gmap string Z := {[ "load" := 2 ]} in
  T1 !! "load" = Some 1 ∧ T2 !! "load" = Some 2 ∧
  merge_times T1 T2 !! "load" = Some 1 ∧
  merge_times T1 T2 !! "load" ≠ Some 2.
Proof. vm_compute. repeat split; congruence. Qed.

(** C3 (amended): after [merge_times(T1, T2)] the keys of [T1] are those it
    had together with every key of [T2]; a key that [T1] already had keeps
    the value of [T1], and a key that only [T2] had gets the value of
    [T2]. *)
Theorem merge_times_insert_semantics (T1 T2 : gmap string Z) :
  dom (merge_times T1 T2) = dom T1 ∪ dom T2 ∧
  ∀ k : string,
    merge_times T1 T2 !! k =
    match T1 !! k with
    | Some v1 => Some v1
    | None => T2 !! k
    end.
Proof.
  rewrite merge_times_union. split.
  - apply dom_union_L.
  - intros k. rewrite lookup_union. by destruct (T1 !! k), (T2 !! k).
Qed.

(** *** The hashed set finds exactly what was inserted *)

Section unordered_set_facts.
Context {A : Type} `{EqDecision A} (hash : A → Z).

Lemma holds_elements_empty : holds_elements hash ∅ [].
Proof.
  intros x. unfold bucket. rewrite lookup_empty. simpl. reflexivity.
Qed.

Lemma uset_find_true s l x :
  holds_elements hash s l → uset_find hash x s = true ↔ x ∈ l.
Proof.
  intros Hs. unfold uset_find. rewrite bool_decide_eq_true. apply Hs.
Qed.

Lemma bucket_insert_same s x y l :
  hash y = hash x → bucket hash (<[hash x := l]> s) y = l.
Proof. intros Heq. unfold bucket. by rewrite Heq, lookup_insert_eq. Qed.

Lemma bucket_insert_other s x y l :
  hash y ≠ hash x → bucket hash (<[hash x := l]> s) y = bucket hash s y.
Proof. intros Hne. unfold bucket. by rewrite lookup_insert_ne. Qed.

Lemma holds_elements_insert s l x :
  holds_elements hash s l → holds_elements hash (uset_insert hash x s) (x :: l).
Proof.
  intros Hs y. unfold uset_insert.
  destruct (uset_find hash x s) eqn:Hfind.
  - apply (uset_find_true s l x Hs) in Hfind.
    rewrite (Hs y), elem_of_cons. split; [by right|].
    intros [->|Hy]; done.
  - assert (x ∉ l) as Hx.
    { intros Hin. apply (uset_find_true s l x Hs) in Hin. congruence. }
    destruct (decide (hash y = hash x)) as [Heq|Hne].
    + rewrite bucket_insert_same by done.
      assert (bucket hash s x = bucket hash s y) as ->.
      { unfold bucket. by rewrite Heq. }
      rewrite !elem_of_cons, (Hs y). reflexivity.
    + rewrite bucket_insert_other by done.
      rewrite (Hs y), elem_of_cons. split; [by right|].
      intros [->|Hy]; done.
Qed.

Lemma holds_elements_iff s l l' :
  (∀ x, x ∈ l ↔ x ∈ l') → holds_elements hash s l → holds_elements hash s l'.
Proof. intros Hll Hs x. rewrite (Hs x). apply Hll. Qed.

Lemma holds_elements_foldl l s seen :
  holds_elements hash s seen →
  holds_elements hash (foldl (λ s x, uset_insert hash x s) s l) (reverse l ++ seen).
Proof.
  revert s seen. induction l as [|x l IH]; intros s seen Hs; simpl.
  - done.
  - rewrite reverse_cons, <- app_assoc. simpl.
    apply IH. by apply holds_elements_insert.
Qed.

Lemma holds_elements_of_range l : holds_elements hash (uset_of_range hash l) l.
Proof.
  unfold uset_of_range.
  apply (holds_elements_iff _ (reverse l ++ [])).
  - intros x. rewrite app_nil_r. apply elem_of_reverse.
  - apply holds_elements_foldl, holds_elements_empty.
Qed.

End unordered_set_facts.

(** *** First occurrences *)

Lemma first_occurrences_filter {A : Type} `{EqDecision A} (P : A → Prop)
    `{!∀ x, Decision (P x)} (l : list A) :
  first_occurrences (filter P l) = filter P (first_occurrences l).
Proof.
  induction l as [|x l IH]; [done|]. simpl.
  destruct (decide (P x)) as [HP|HP].
  - rewrite !filter_cons_True by done. simpl. f_equal.
    rewrite IH, !list_filter_filter. apply list_filter_iff.
    intros y. tauto.
  - rewrite !filter_cons_False by done. rewrite IH.
    symmetry. apply list_filter_filter_l. intros y Hy ->. done.
Qed.

Lemma first_occurrences_NoDup {A : Type} `{EqDecision A} (l : list A) :
  NoDup (first_occurrences l).
Proof.
  induction l as [|x l IH]; simpl; [constructor|].
  constructor.
  - rewrite list_elem_of_filter. intros [Hne _]. by apply Hne.
  - by apply NoDup_filter.
Qed.

Lemma first_occurrences_elem_of {A : Type} `{EqDecision A} (l : list A) x :
  x ∈ first_occurrences l ↔ x ∈ l.
Proof.
  induction l as [|y l IH]; simpl; [done|].
  rewrite !elem_of_cons, list_elem_of_filter, IH.
  destruct (decide (x = y)); tauto.
Qed.

Lemma first_occurrences_id {A : Type} `{EqDecision A} (l : list A) :
  NoDup l → first_occurrences l = l.
Proof.
  induction 1 as [|x l Hx Hl IH]; simpl; [done|].
  rewrite IH. f_equal. clear IH Hl.
  induction l as [|y l IHl]; [done|].
  apply not_elem_of_cons in Hx as [Hxy Hx].
  rewrite filter_cons_True by congruence.
  f_equal. by apply IHl.
Qed.

(** *** [merge_records] *)

Section merge_records_facts.
Context (RecordHash : Record_t → Z).

Lemma merge_fold (vec2 response : list Record_t)
    (unique_elements : gmap Z (list Record_t)) (seen : list Record_t) :
  holds_elements RecordHash unique_elements seen →
  fst (foldl (merge_step RecordHash) (response, unique_elements) vec2) =
  response ++ first_occurrences (filter (λ b, b ∉ seen) vec2).
Proof.
  revert response unique_elements seen.
  induction vec2 as [|b vec2 IH]; intros response unique_elements seen Hs.
  - simpl. by rewrite app_nil_r.
  - simpl. destruct (uset_find RecordHash b unique_elements) eqn:Hfind.
    + apply (uset_find_true RecordHash _ seen b Hs) in Hfind.
      rewrite filter_cons_False by (intros Hn; by apply Hn).
      by apply IH.
    + assert (b ∉ seen) as Hb.
      { intros Hin. apply (uset_find_true RecordHash _ seen b Hs) in Hin.
        congruence. }
      rewrite filter_cons_True by done. simpl.
      rewrite (IH _ _ (b :: seen)) by by apply holds_elements_insert.
      rewrite <- app_assoc. simpl. do 2 f_equal.
      rewrite <- first_occurrences_filter, list_filter_filter.
      f_equal. apply list_filter_iff. intros x. rewrite not_elem_of_cons.
      naive_solver.
Qed.

End merge_records_facts.

(** C6 (as stated, refuted): a record that occurs twice in [B] and not in
    [A] is appended once, where the claim keeps both occurrences. *)
Lemma merge_records_repeated_in_second :
  let A : list Record_t := [] in
  let B : list Record_t := [["1"; "ann"]; ["1"; "ann"]] in
  merge_records Mock.hash A B = [["1"; "ann"]] ∧
  merge_records Mock.hash A B ≠ A ++ filter (λ b, b ∉ A) B.
Proof. vm_compute. split; [reflexivity | discriminate]. Qed.

(** C6 (amended): [merge_records(A, B)] is [A], in its order, followed by
    the records of [B] that are equal to no record of [A], each at its
    first occurrence in [B] only and in the order of [B]; membership is
    decided by equality of records, whatever the hash. *)
Theorem merge_records_first_occurrences (RecordHash : Record_t → Z)
    (A B : list Record_t) :
  merge_records RecordHash A B =
  A ++ first_occurrences (filter (λ b, b ∉ A) B).
Proof.
  unfold merge_records. simpl.
  apply merge_fold, holds_elements_of_range.
Qed.

(** When no record is repeated within [B], the appended part is exactly the
    records of [B] that are not in [A]. *)
Lemma merge_records_NoDup (RecordHash : Record_t → Z) (A B : list Record_t) :
  NoDup B →
  merge_records RecordHash A B = A ++ filter (λ b, b ∉ A) B.
Proof.
  intros HB. unfold merge_records. simpl.
  rewrite (merge_fold RecordHash B A _ A)
    by apply holds_elements_of_range.
  f_equal. apply first_occurrences_id. by apply NoDup_filter.
Qed.

(** The merged vector holds the records of both vectors and no other. *)
Lemma merge_records_elem_of (RecordHash : Record_t → Z)
    (A B : list Record_t) (r : Record_t) :
  r ∈ merge_records RecordHash A B ↔ r ∈ A ∨ r ∈ B.
Proof.
  unfold merge_records. simpl.
  rewrite (merge_fold RecordHash B A _ A)
    by apply holds_elements_of_range.
  rewrite elem_of_app, first_occurrences_elem_of, list_elem_of_filter.
  destruct (decide (r ∈ A)); tauto.
Qed.

(** A record that is in both vectors, and once in [A], is once in the
    merged vector. *)
Lemma merge_records_NoDup_result (RecordHash : Record_t → Z)
    (A B : list Record_t) :
  NoDup A → NoDup (merge_records RecordHash A B).
Proof.
  intros HA. unfold merge_records. simpl.
  rewrite (merge_fold RecordHash B A _ A)
    by apply holds_elements_of_range.
  apply NoDup_app. split; [done|]. split.
  - intros r Hr. rewrite first_occurrences_elem_of, list_elem_of_filter.
    tauto.
  - apply first_occurrences_NoDup.
Qed.

(** ** Statement callbacks *)

Section callbacks.
Context {E : Type} `{!DB_ENGINE.DBEngine E}.

(** *** [create_table] *)

Lemma last_primary_key_cons (col : column_t) (columns : list column_t)
    (primary_key : string) :
  from_option name primary_key
    (last (filter (λ col, is_pk col = true) (col :: columns))) =
  from_option name (if is_pk col then name col else primary_key)
    (last (filter (λ col, is_pk col = true) columns)).
Proof.
  destruct (is_pk col) eqn:Hpk.
  - rewrite filter_cons_True by done. rewrite last_cons.
    by destruct (last _).
  - rewrite filter_cons_False by congruence. done.
Qed.

Lemma create_table_fold (columns : list column_t) (primary_key : string)
    (col_types : list Type_) (col_names : list string) :
  foldl SqlParser.create_table_step (primary_key, col_types, col_names)
    columns =
  (from_option name primary_key
     (last (filter (λ col, is_pk col = true) columns)),
   col_types ++ (type <$> columns),
   col_names ++ (name <$> columns)).
Proof.
  revert primary_key col_types col_names.
  induction columns as [|col columns IH]; intros primary_key tys nms.
  - simpl. by rewrite !app_nil_r.
  - cbn [foldl SqlParser.create_table_step]. rewrite IH.
    rewrite last_primary_key_cons, !fmap_cons, <- !app_assoc. done.
Qed.

(** [last_primary_key] is the empty string when no column is marked. *)
Lemma last_primary_key_unmarked (columns : list column_t) :
  Forall (λ col, is_pk col = false) columns →
  SqlParser.last_primary_key columns = "".
Proof.
  intros Hno. unfold SqlParser.last_primary_key.
  replace (filter (λ col, is_pk col = true) columns) with (@nil column_t);
    [done|].
  induction Hno as [|col columns Hcol _ IH]; [done|].
  rewrite filter_cons_False by congruence. done.
Qed.

(** [last_primary_key] is the name of the marked column after which no
    column is marked. *)
Lemma last_primary_key_marked (before after : list column_t)
    (col : column_t) :
  is_pk col = true →
  Forall (λ col, is_pk col = false) after →
  SqlParser.last_primary_key (before ++ col :: after) = name col.
Proof.
  intros Hcol Hafter. unfold SqlParser.last_primary_key.
  rewrite filter_app, filter_cons_True by done.
  replace (filter (λ col, is_pk col = true) after) with (@nil column_t).
  - by rewrite last_snoc.
  - induction Hafter as [|col' after Hc _ IH]; [done|].
    rewrite filter_cons_False by congruence. done.
Qed.

(** C10: [create_table] hands the engine, in one call, the name of the
    last column marked as primary key, or the empty string when none is
    marked, with the types and the names of all columns in source order;
    nothing is checked about how many columns are marked. *)
Theorem create_table_forwards (tablename : string)
    (columns : list column_t) (s : SqlParser.t E) :
  SqlParser.create_table tablename columns s =
  SqlParser.Returns tt
    (SqlParser.set_engine s
       (DB_ENGINE.create_table (SqlParser.m_engine s) tablename
          (SqlParser.last_primary_key columns)
          (type <$> columns) (name <$> columns))).
Proof.
  unfold SqlParser.create_table. rewrite create_table_fold. done.
Qed.

(** *** [insert] *)

Lemma copy_reverse_range_take (values : list string) (n : nat) :
  (n ≤ length values)%nat →
  SqlParser.copy_reverse_range values n = rev (take n values).
Proof.
  induction n as [|n IH]; intros Hn; [done|]. simpl.
  destruct (lookup_lt_is_Some_2 values n) as [v Hv]; [lia|].
  rewrite Hv, (take_S_r _ _ v) by done.
  rewrite rev_app_distr. simpl. f_equal. apply IH. lia.
Qed.

(** C7: [insert] hands the engine, in one call of [add], the values it was
    given in reverse order. *)
Theorem insert_forwards_reversed (tablename : string)
    (values : list string) (s : SqlParser.t E) :
  SqlParser.insert tablename values s =
  SqlParser.Returns tt
    (SqlParser.set_engine s
       (DB_ENGINE.add (SqlParser.m_engine s) tablename (rev values))).
Proof.
  unfold SqlParser.insert.
  rewrite copy_reverse_range_take, take_ge by lia. done.
Qed.

(** *** [remove] *)

(** C9: on a constraint whose first AND-group is not empty, [remove] calls
    the engine's [remove] once, with the column name and the value of the
    first condition of the first group; the operator of that condition,
    the other conditions of the group and the other groups do not enter
    the call. *)
Theorem remove_uses_first_condition (tablename : string)
    (first : condition_t) (others : list condition_t)
    (groups : list (list condition_t)) (s : SqlParser.t E) :
  SqlParser.remove tablename ((first :: others) :: groups) s =
  SqlParser.Returns tt
    (SqlParser.set_engine s
       (DB_ENGINE.remove (SqlParser.m_engine s) tablename
          (DB_ENGINE.mk_attribute (column_name first) (value first))))
  ∧ ∀ (op : Comp) (others' : list condition_t)
      (groups' : list (list condition_t)),
      SqlParser.remove tablename
        ((mk_condition (column_name first) op (value first) :: others')
           :: groups') s =
      SqlParser.remove tablename ((first :: others) :: groups) s.
Proof. split; reflexivity. Qed.

End callbacks.

(** ** [select] *)

Section select_facts.
Context {E : Type} `{!DB_ENGINE.DBEngine E}.
Implicit Types (e : E) (tablename : string) (cond key : condition_t).
Implicit Types (lambdas : list (Record_t → bool)).

(** *** The inner loop: key and residual of an AND-group *)

Lemma select_and_step_unindexed e tablename key lambdas cond :
  ¬ SqlParser.indexed e tablename cond →
  SqlParser.select_and_step e tablename (key, lambdas) cond =
  (key, lambdas ++ [SqlParser.comparator_of e tablename cond]).
Proof.
  intros Hno. unfold SqlParser.select_and_step, SqlParser.found.
  rewrite bool_decide_eq_false_2 by done. reflexivity.
Qed.

Lemma select_and_step_indexed e tablename key lambdas cond :
  SqlParser.indexed e tablename cond →
  SqlParser.select_and_step e tablename (key, lambdas) cond =
  (if String.eqb (column_name key) "" then cond else key, lambdas).
Proof.
  intros Hyes. unfold SqlParser.select_and_step, SqlParser.found.
  rewrite bool_decide_eq_true_2 by done. simpl.
  by destruct (String.eqb (column_name key) "").
Qed.

Lemma and_fold_lambdas e tablename (d : list condition_t) key lambdas :
  snd (foldl (SqlParser.select_and_step e tablename) (key, lambdas) d) =
  lambdas ++
  (SqlParser.comparator_of e tablename
     <$> filter (λ cond, ¬ SqlParser.indexed e tablename cond) d).
Proof.
  revert key lambdas. induction d as [|cond d IH]; intros key lambdas.
  - simpl. by rewrite app_nil_r.
  - cbn [foldl].
    destruct (decide (SqlParser.indexed e tablename cond)) as [Hi|Hi].
    + rewrite select_and_step_indexed, IH by done.
      rewrite filter_cons_False by tauto. done.
    + rewrite select_and_step_unindexed, IH by done.
      rewrite filter_cons_True by done.
      rewrite fmap_cons, <- app_assoc. done.
Qed.

Lemma and_fold_key_kept e tablename (d : list condition_t) key lambdas :
  column_name key ≠ "" →
  fst (foldl (SqlParser.select_and_step e tablename) (key, lambdas) d) = key.
Proof.
  intros Hkey. revert lambdas. induction d as [|cond d IH]; intros lambdas.
  - done.
  - cbn [foldl].
    destruct (decide (SqlParser.indexed e tablename cond)) as [Hi|Hi].
    + rewrite select_and_step_indexed by done.
      apply String.eqb_neq in Hkey. rewrite Hkey. apply IH.
    + rewrite select_and_step_unindexed by done. apply IH.
Qed.

Lemma and_fold_key_unindexed e tablename (d : list condition_t) key lambdas :
  Forall (λ cond, ¬ SqlParser.indexed e tablename cond) d →
  fst (foldl (SqlParser.select_and_step e tablename) (key, lambdas) d) = key.
Proof.
  intros Hd. revert lambdas.
  induction Hd as [|cond d Hcond _ IH]; intros lambdas; [done|].
  cbn [foldl]. rewrite select_and_step_unindexed by done. apply IH.
Qed.

(** The key of an AND-group is its first condition on an indexed column. *)
Lemma and_fold_key_first_indexed e tablename
    (before after : list condition_t) driver key lambdas :
  Forall (λ cond, ¬ SqlParser.indexed e tablename cond) before →
  SqlParser.indexed e tablename driver →
  column_name driver ≠ "" →
  column_name key = "" →
  fst (foldl (SqlParser.select_and_step e tablename) (key, lambdas)
         (before ++ driver :: after)) = driver.
Proof.
  intros Hbefore Hdriver Hname Hkey. rewrite foldl_app.
  pose proof (and_fold_key_unindexed e tablename before key lambdas Hbefore)
    as Hfst.
  destruct (foldl _ (key, lambdas) before) as [key' lambdas'].
  simpl in Hfst. subst key'. cbn [foldl].
  rewrite select_and_step_indexed by done.
  apply String.eqb_eq in Hkey. rewrite Hkey.
  by apply and_fold_key_kept.
Qed.

Lemma and_fold_key_named e tablename (d : list condition_t) key lambdas :
  Exists (λ cond, SqlParser.indexed e tablename cond ∧ column_name cond ≠ "")
    d →
  column_name
    (fst (foldl (SqlParser.select_and_step e tablename) (key, lambdas) d))
  ≠ "".
Proof.
  intros Hd. revert key lambdas.
  induction Hd as [cond d [Hi Hname]|cond d _ IH]; intros key lambdas.
  - cbn [foldl]. rewrite select_and_step_indexed by done.
    destruct (String.eqb (column_name key) "") eqn:Hkey.
    + by rewrite and_fold_key_kept.
    + apply String.eqb_neq in Hkey. by rewrite and_fold_key_kept.
  - cbn [foldl].
    destruct (SqlParser.select_and_step e tablename (key, lambdas) cond)
      as [key' lambdas'].
    apply IH.
Qed.

Lemma select_and_loop_residual e tablename (d : list condition_t) :
  SqlParser.joined_lambdas (snd (SqlParser.select_and_loop e tablename d)) =
  SqlParser.residual e tablename d.
Proof.
  unfold SqlParser.select_and_loop, SqlParser.residual.
  by rewrite and_fold_lambdas.
Qed.

Lemma filter_unindexed_all e tablename (d : list condition_t) :
  Forall (λ cond, ¬ SqlParser.indexed e tablename cond) d →
  filter (λ cond, ¬ SqlParser.indexed e tablename cond) d = d.
Proof.
  induction 1 as [|cond d Hcond _ IH]; [done|].
  rewrite filter_cons_True by done. by rewrite IH.
Qed.

(** *** The outer loop *)

Lemma select_or_step_named_key e tablename (sorted : list string)
    (query_response : DB_ENGINE.QueryResponse) (d : list condition_t) key :
  fst (SqlParser.select_and_loop e tablename d) = key →
  column_name key ≠ "" →
  SqlParser.select_or_step e tablename sorted query_response d =
  (SqlParser.Continue,
   SqlParser.merged query_response
     (SqlParser.index_query e tablename key
        (SqlParser.residual e tablename d) sorted).1,
   (SqlParser.index_query e tablename key
      (SqlParser.residual e tablename d) sorted).2).
Proof.
  intros Hkey Hname. unfold SqlParser.select_or_step.
  rewrite <- select_and_loop_residual.
  destruct (SqlParser.select_and_loop e tablename d) as [key' lambdas].
  simpl in Hkey. subst key'. simpl.
  apply String.eqb_neq in Hname. rewrite Hname.
  by destruct (SqlParser.index_query _ _ _ _ _).
Qed.

(** An AND-group with a condition on an indexed column does not end the
    loop. *)
Lemma select_or_step_continues e tablename (sorted : list string)
    (query_response : DB_ENGINE.QueryResponse) (d : list condition_t) :
  Exists (λ cond, SqlParser.indexed e tablename cond ∧ column_name cond ≠ "")
    d →
  (SqlParser.select_or_step e tablename sorted query_response d).1.1 =
  SqlParser.Continue.
Proof.
  intros Hd.
  rewrite (select_or_step_named_key e tablename sorted query_response d _
             eq_refl); [done|].
  by apply and_fold_key_named.
Qed.

(** C8: in a round for which the inner loop chose a key (the index
    driver), the engine is asked once: [search] on the driver's column and
    value when its operator is [=]; [range_search] from [KEY_MIN] up to
    the driver's column and value when it is [<] or [<=]; [range_search]
    from the driver's column and value up to [KEY_MAX] when it is [>] or
    [>=].  Each call carries the residual predicate of the group and the
    sorted column list, and what it returns is merged into the running
    response. *)
Theorem select_or_step_driver_call e tablename (sorted : list string)
    (query_response : DB_ENGINE.QueryResponse) (d : list condition_t)
    driver :
  fst (SqlParser.select_and_loop e tablename d) = driver →
  column_name driver ≠ "" →
  SqlParser.select_or_step e tablename sorted query_response d =
  let '(or_response, e') :=
    match c driver with
    | EQUAL =>
        DB_ENGINE.search e tablename
          (DB_ENGINE.mk_attribute (column_name driver) (value driver))
          (Some (SqlParser.residual e tablename d)) sorted
    | L | LE =>
        DB_ENGINE.range_search e tablename DB_ENGINE.KEY_MIN
          (DB_ENGINE.mk_attribute (column_name driver) (value driver))
          (Some (SqlParser.residual e tablename d)) sorted
    | G | GE =>
        DB_ENGINE.range_search e tablename
          (DB_ENGINE.mk_attribute (column_name driver) (value driver))
          DB_ENGINE.KEY_MAX
          (Some (SqlParser.residual e tablename d)) sorted
    end in
  (SqlParser.Continue, SqlParser.merged query_response or_response, e').
Proof.
  intros Hdriver Hname.
  rewrite (select_or_step_named_key e tablename sorted query_response d
             driver) by done.
  unfold SqlParser.index_query.
  destruct (c driver); simpl;
    by match goal with |- context [let '(_, _) := ?call in _] =>
         destruct call end.
Qed.

(** The driver is the first condition of the group whose column has an
    index; the conditions before it are in the residual. *)
Corollary select_or_step_first_indexed_drives e tablename
    (sorted : list string) (query_response : DB_ENGINE.QueryResponse)
    (before after : list condition_t) driver :
  Forall (λ cond, ¬ SqlParser.indexed e tablename cond) before →
  SqlParser.indexed e tablename driver →
  column_name driver ≠ "" →
  fst (SqlParser.select_and_loop e tablename (before ++ driver :: after))
  = driver
  ∧ SqlParser.select_or_step e tablename sorted query_response
      (before ++ driver :: after) =
    (SqlParser.Continue,
     SqlParser.merged query_response
       (SqlParser.index_query e tablename driver
          (SqlParser.residual e tablename (before ++ driver :: after))
          sorted).1,
     (SqlParser.index_query e tablename driver
        (SqlParser.residual e tablename (before ++ driver :: after))
        sorted).2).
Proof.
  intros Hbefore Hdriver Hname.
  assert (fst (SqlParser.select_and_loop e tablename
                 (before ++ driver :: after)) = driver) as Hkey.
  { by apply and_fold_key_first_indexed. }
  split; [done|]. by apply select_or_step_named_key.
Qed.

(** A round whose AND-group has no condition on an indexed column is one
    filtered [load], and it leaves the loop. *)
Lemma select_or_step_full_scan e tablename (sorted : list string)
    (query_response : DB_ENGINE.QueryResponse) (d : list condition_t) :
  Forall (λ cond, ¬ SqlParser.indexed e tablename cond) d →
  SqlParser.select_or_step e tablename sorted query_response d =
  (SqlParser.Break,
   (DB_ENGINE.load e tablename sorted
      (Some (SqlParser.joined_lambdas
               (SqlParser.comparator_of e tablename <$> d)))).1,
   (DB_ENGINE.load e tablename sorted
      (Some (SqlParser.joined_lambdas
               (SqlParser.comparator_of e tablename <$> d)))).2).
Proof.
  intros Hd. unfold SqlParser.select_or_step.
  pose proof (and_fold_key_unindexed e tablename d condition_default [] Hd)
    as Hkey.
  pose proof (and_fold_lambdas e tablename d condition_default [])
    as Hlambdas.
  rewrite (filter_unindexed_all e tablename d Hd) in Hlambdas.
  unfold SqlParser.select_and_loop.
  destruct (foldl _ (condition_default, []) d) as [key lambdas].
  simpl in Hkey, Hlambdas. subst key lambdas. simpl.
  by destruct (DB_ENGINE.load _ _ _ _).
Qed.

Lemma select_or_loop_app e tablename (sorted : list string)
    (query_response query_response1 : DB_ENGINE.QueryResponse)
    (before rest : list (list condition_t)) (e1 : E) :
  SqlParser.select_or_loop e tablename sorted query_response before =
  (SqlParser.Continue, query_response1, e1) →
  SqlParser.select_or_loop e tablename sorted query_response (before ++ rest)
  = SqlParser.select_or_loop e1 tablename sorted query_response1 rest.
Proof.
  revert e query_response.
  induction before as [|d before IH]; intros e query_response Hrun.
  - simpl in Hrun. by inversion Hrun.
  - simpl in *.
    destruct (SqlParser.select_or_step e tablename sorted query_response d)
      as [[[] qr'] e'].
    + by apply IH.
    + discriminate.
Qed.

(** If the queries of the engine leave its list of indexes as it is, the
    loop runs to the end of a list of AND-groups that each have a
    condition on an indexed column. *)
Lemma select_or_loop_continues e tablename (sorted : list string)
    (query_response : DB_ENGINE.QueryResponse)
    (groups : list (list condition_t)) :
  (∀ e0 (point : DB_ENGINE.Attribute) p cols,
     DB_ENGINE.get_indexes_names
       (DB_ENGINE.search e0 tablename point p cols).2 tablename =
     DB_ENGINE.get_indexes_names e0 tablename) →
  (∀ e0 lo hi p cols,
     DB_ENGINE.get_indexes_names
       (DB_ENGINE.range_search e0 tablename lo hi p cols).2 tablename =
     DB_ENGINE.get_indexes_names e0 tablename) →
  Forall
    (Exists (λ cond, SqlParser.indexed e tablename cond
                     ∧ column_name cond ≠ "")) groups →
  ∃ (gathered : DB_ENGINE.QueryResponse) (e1 : E),
    SqlParser.select_or_loop e tablename sorted query_response groups =
    (SqlParser.Continue, gathered, e1)
    ∧ DB_ENGINE.get_indexes_names e1 tablename =
      DB_ENGINE.get_indexes_names e tablename.
Proof.
  intros Hsearch Hrange Hgroups. revert e query_response Hgroups.
  induction groups as [|d groups IH]; intros e query_response Hgroups.
  - by exists query_response, e.
  - apply Forall_cons in Hgroups as [Hd Hgroups]. simpl.
    rewrite (select_or_step_named_key e tablename sorted query_response d _
               eq_refl) by by apply and_fold_key_named.
    set (key := (SqlParser.select_and_loop e tablename d).1).
    set (e' := (SqlParser.index_query e tablename key
                  (SqlParser.residual e tablename d) sorted).2).
    assert (DB_ENGINE.get_indexes_names e' tablename =
            DB_ENGINE.get_indexes_names e tablename) as Hsame.
    { subst e'. unfold SqlParser.index_query.
      destruct (decide (c key = EQUAL)); [apply Hsearch|].
      destruct (c key); apply Hrange. }
    destruct (IH e' (SqlParser.merged query_response
                       (SqlParser.index_query e tablename key
                          (SqlParser.residual e tablename d) sorted).1))
      as (gathered & e1 & Hrun & Hindexes).
    + unfold SqlParser.indexed in *. by rewrite Hsame.
    + exists gathered, e1. split; [done|]. by rewrite Hindexes.
Qed.

(** C1: when the loop of [select] reaches an AND-group that has no
    condition on an indexed column, that round is a single filtered [load]
    whose predicate is the conjunction of the comparators of the group,
    the loop is left there, and the response that [select] emits holds
    exactly the records (and timings) of that [load]: what the earlier
    groups had gathered is replaced and the later groups are not run. *)
Theorem select_full_scan_short_circuit tablename (cols : list string)
    (before after : list (list condition_t)) (d : list condition_t)
    (s : SqlParser.t E) (gathered scan : DB_ENGINE.QueryResponse)
    (e1 e2 : E) :
  SqlParser.some_column_missing
    (DB_ENGINE.get_table_attributes (SqlParser.m_engine s) tablename)
    (DB_ENGINE.sort_attributes (SqlParser.m_engine s) tablename cols)
  = false →
  SqlParser.select_or_loop (SqlParser.m_engine s) tablename
    (DB_ENGINE.sort_attributes (SqlParser.m_engine s) tablename cols)
    DB_ENGINE.QueryResponse_default before
  = (SqlParser.Continue, gathered, e1) →
  Forall (λ cond, ¬ SqlParser.indexed e1 tablename cond) d →
  DB_ENGINE.load e1 tablename
    (DB_ENGINE.sort_attributes (SqlParser.m_engine s) tablename cols)
    (Some (SqlParser.joined_lambdas
             (SqlParser.comparator_of e1 tablename <$> d)))
  = (scan, e2) →
  SqlParser.select_or_step e1 tablename
    (DB_ENGINE.sort_attributes (SqlParser.m_engine s) tablename cols)
    gathered d
  = (SqlParser.Break, scan, e2)
  ∧ ∃ s' : SqlParser.t E,
      SqlParser.select tablename cols (before ++ d :: after) s =
      SqlParser.Returns tt s'
      ∧ SqlParser.m_engine s' = e2
      ∧ records (SqlParser.m_parser_response s') = DB_ENGINE.records scan
      ∧ query_times (SqlParser.m_parser_response s') =
        DB_ENGINE.query_times scan.
Proof.
  intros Hcols Hbefore Hd Hload.
  pose proof (select_or_step_full_scan e1 tablename
                (DB_ENGINE.sort_attributes (SqlParser.m_engine s) tablename
                   cols) gathered d Hd) as Hstep.
  rewrite Hload in Hstep. simpl in Hstep. split; [done|].
  unfold SqlParser.select. rewrite Hcols.
  assert (SqlParser.select_or_loop (SqlParser.m_engine s) tablename
            (DB_ENGINE.sort_attributes (SqlParser.m_engine s) tablename cols)
            DB_ENGINE.QueryResponse_default (before ++ d :: after)
          = (SqlParser.Break, scan, e2)) as Hloop.
  { rewrite (select_or_loop_app _ _ _ _ _ _ _ _ Hbefore).
    simpl. by rewrite Hstep. }
  destruct (before ++ d :: after) as [|d0 rest] eqn:Hshape.
  { by destruct before. }
  rewrite Hloop. eexists. split; [reflexivity|]. done.
Qed.

End select_facts.

(** The column list that [select] emits is the one that the engine's
    [sort_attributes] returned. *)
Lemma select_emits_sorted_columns {E : Type} `{!DB_ENGINE.DBEngine E}
    (tablename : string) (cols : list string)
    (constraints : list (list condition_t)) (s s' : SqlParser.t E) :
  SqlParser.select tablename cols constraints s = SqlParser.Returns tt s' →
  column_names (SqlParser.m_parser_response s') =
  DB_ENGINE.sort_attributes (SqlParser.m_engine s) tablename cols.
Proof.
  unfold SqlParser.select.
  destruct (SqlParser.some_column_missing _ _); [discriminate|].
  destruct constraints as [|d rest].
  - destruct (DB_ENGINE.load _ _ _ _) as [qr e'].
    intros [= <-]. reflexivity.
  - destruct (SqlParser.select_or_loop _ _ _ _ _) as [[ctl qr] e'].
    intros [= <-]. reflexivity.
Qed.

(** The column list that [select_between] emits is the requested one, in
    the requested order. *)
Lemma select_between_emits_requested_columns {E : Type}
    `{!DB_ENGINE.DBEngine E} (tablename : string) (cols : list string)
    (id val1 val2 : string) (s s' : SqlParser.t E) :
  SqlParser.select_between tablename cols id val1 val2 s =
  SqlParser.Returns tt s' →
  column_names (SqlParser.m_parser_response s') = cols.
Proof.
  unfold SqlParser.select_between.
  destruct (SqlParser.some_column_missing _ _); [discriminate|].
  destruct (DB_ENGINE.range_search _ _ _ _ _ _) as [qr e'].
  intros [= <-]. reflexivity.
Qed.

(** ** [parse] *)

(** C5 (amended): [parse(stream)] returns the current response, with the
    session untouched, exactly when [eofbit] is set; in every other state
    of the stream, also when [failbit] or [badbit] is set, it binds a new
    scanner and a new parser to the stream and runs the parser: on
    acceptance it returns the response the callbacks left, otherwise it
    throws. *)
Theorem parse_returns_early_at_eof_only {E : Type}
    `{!DB_ENGINE.DBEngine E} `{!SqlParser.Grammar E}
    (stream : istream) (s : SqlParser.t E) :
  SqlParser.parse stream s =
  if eof stream then
    SqlParser.Returns (SqlParser.m_parser_response s) s
  else
    match
      SqlParser.yyparse (new_scanner stream)
        (SqlParser.set_parser
           (SqlParser.set_sc s (new_scanner stream))
           (new_parser (new_scanner stream)))
    with
    | SqlParser.Returns rc s' =>
        if rc =? ACCEPT
        then SqlParser.Returns (SqlParser.m_parser_response s') s'
        else SqlParser.Throws "Parsing failed" s'
    | SqlParser.Throws what s' => SqlParser.Throws what s'
    | SqlParser.Undefined => SqlParser.Undefined
    end.
Proof.
  unfold SqlParser.parse, SqlParser.parse_helper, good, eof.
  destruct (eofbit stream) eqn:Heof.
  - by rewrite !orb_true_r.
  - rewrite andb_false_r.
    destruct (SqlParser.yyparse _ _) as [rc s'|what s'|]; [|done|done].
    by destruct (rc =? ACCEPT).
Qed.

(** ** The mock engine at work *)

(** C5 (as stated, refuted): a stream whose [failbit] alone is set is in a
    failed state, yet [parse] binds a scanner and a parser to it and runs
    the parser; the session is not left as it was. *)
Lemma parse_failed_stream_is_parsed :
  let stream := mk_istream false true false "" in
  fail stream = true ∧ good stream = false ∧
  SqlParser.parse stream Mock.session0 ≠
  SqlParser.Returns (SqlParser.m_parser_response Mock.session0) Mock.session0
  ∧ ∃ s' : SqlParser.t Mock.engine,
      SqlParser.parse stream Mock.session0 =
      SqlParser.Returns (SqlParser.m_parser_response s') s'
      ∧ SqlParser.m_sc s' = Some (new_scanner stream)
      ∧ SqlParser.m_parser s' = Some (new_parser (new_scanner stream)).
Proof.
  intros stream. split; [reflexivity|]. split; [reflexivity|]. split.
  - intros Heq.
    apply (f_equal (λ o, match o with
                         | SqlParser.Returns _ s' => SqlParser.m_sc s'
                         | _ => None
                         end)) in Heq.
    vm_compute in Heq. discriminate.
  - eexists. split; [reflexivity|]. split; reflexivity.
Qed.

(** C2: on the AND-group [id = 1 AND age < 30] of a table with indexes on
    [id] and on [age], the key is the first condition, and the second one
    is dropped: it is not in the residual (no comparator at all was
    gathered), so that [select] returns a record whose [age] is 30. *)
Theorem second_indexed_condition_dropped :
  let d := [mk_condition "id" EQUAL "1"; mk_condition "age" L "30"] in
  SqlParser.found (DB_ENGINE.get_indexes_names Mock.people "t") "id" = true
  ∧ SqlParser.found (DB_ENGINE.get_indexes_names Mock.people "t") "age"
    = true
  ∧ SqlParser.select_and_loop Mock.people "t" d =
    (mk_condition "id" EQUAL "1", [])
  ∧ ∃ s' : SqlParser.t Mock.engine,
      SqlParser.select "t" ["id"; "name"; "age"] [d] Mock.session0 =
      SqlParser.Returns tt s'
      ∧ records (SqlParser.m_parser_response s') = [["1"; "ann"; "30"]]
      ∧ Mock.calls (SqlParser.m_engine s') =
        [Mock.Search "t" (DB_ENGINE.mk_attribute "id" "1")
           ["id"; "name"; "age"]].
Proof.
  intros d. split; [reflexivity|]. split; [reflexivity|].
  split; [reflexivity|].
  eexists. split; [vm_compute; reflexivity|]. split; reflexivity.
Qed.

(** C4: the engine puts the requested columns [name, id] in schema order
    [id, name], and [select] emits them so; [select_between] emits
    [name, id], the order of the request. *)
Theorem select_between_columns_not_sorted :
  DB_ENGINE.sort_attributes Mock.people "t" ["name"; "id"] = ["id"; "name"]
  ∧ (∃ s' : SqlParser.t Mock.engine,
       SqlParser.select "t" ["name"; "id"] [] Mock.session0 =
       SqlParser.Returns tt s'
       ∧ column_names (SqlParser.m_parser_response s') = ["id"; "name"])
  ∧ (∃ s' : SqlParser.t Mock.engine,
       SqlParser.select_between "t" ["name"; "id"] "id" "1" "2"
         Mock.session0 = SqlParser.Returns tt s'
       ∧ column_names (SqlParser.m_parser_response s') = ["name"; "id"]).
Proof.
  split; [reflexivity|]. split.
  - eexists. split; [vm_compute; reflexivity|]. reflexivity.
  - eexists. split; [vm_compute; reflexivity|]. reflexivity.
Qed.

(** C1 at work: [id = 2 OR name = cy OR id = 1] with an index on [id] and
    none on [name].  The first group is searched, the second is a filtered
    load that ends the loop, the third is not run; the response holds the
    records of the load alone. *)
Lemma select_full_scan_short_circuit_witness :
  ∃ s' : SqlParser.t Mock.engine,
    SqlParser.select "t" ["name"; "id"]
      ([[mk_condition "id" EQUAL "2"]]
         ++ [mk_condition "name" EQUAL "cy"]
         :: [[mk_condition "id" EQUAL "1"]])
      Mock.session0
    = SqlParser.Returns tt s'
    ∧ records (SqlParser.m_parser_response s') = [["3"; "cy"; "30"]]
    ∧ Mock.calls (SqlParser.m_engine s') =
      [Mock.Search "t" (DB_ENGINE.mk_attribute "id" "2") ["id"; "name"];
       Mock.Load "t" ["id"; "name"] true].
Proof.
  edestruct (select_full_scan_short_circuit "t" ["name"; "id"]
               [[mk_condition "id" EQUAL "2"]]
               [[mk_condition "id" EQUAL "1"]]
               [mk_condition "name" EQUAL "cy"] Mock.session0)
    as [_ (s' & Hselect & Hengine & Hrecords & _)].
  - reflexivity.
  - reflexivity.
  - apply Forall_cons. split; [compute_done | apply Forall_nil_2].
  - reflexivity.
  - exists s'. split; [exact Hselect|].
    rewrite Hrecords, Hengine. split; reflexivity.
Defined.

(** C8 at work: [name < c AND id >= 2] with an index on [id] and none on
    [name] is one [range_search] from [id = 2] up to [KEY_MAX] that
    carries the residual of the group. *)
Lemma select_or_step_driver_call_witness :
  SqlParser.select_or_step Mock.people "t" ["id"; "name"]
    DB_ENGINE.QueryResponse_default
    ([mk_condition "name" L "c"] ++ mk_condition "id" GE "2" :: [])
  = let '(or_response, e') :=
      DB_ENGINE.range_search Mock.people "t"
        (DB_ENGINE.mk_attribute "id" "2") DB_ENGINE.KEY_MAX
        (Some (SqlParser.residual Mock.people "t"
                 ([mk_condition "name" L "c"]
                    ++ mk_condition "id" GE "2" :: [])))
        ["id"; "name"] in
    (SqlParser.Continue,
     SqlParser.merged DB_ENGINE.QueryResponse_default or_response, e').
Proof.
  apply (select_or_step_driver_call Mock.people "t" ["id"; "name"]
           DB_ENGINE.QueryResponse_default
           ([mk_condition "name" L "c"] ++ mk_condition "id" GE "2" :: [])
           (mk_condition "id" GE "2")).
  - reflexivity.
  - discriminate.
Defined.

(** What the mock engine was asked by [insert], [remove] and
    [create_table]. *)
Example insert_reverses_for_the_engine :
  ∃ s' : SqlParser.t Mock.engine,
    SqlParser.insert "t" ["cy"; "3"] Mock.session0 = SqlParser.Returns tt s'
    ∧ Mock.calls (SqlParser.m_engine s') = [Mock.Add "t" ["3"; "cy"]].
Proof. eexists. split; reflexivity. Qed.

Example remove_asks_once :
  ∃ s' : SqlParser.t Mock.engine,
    SqlParser.remove "t"
      [[mk_condition "id" GE "2"; mk_condition "name" EQUAL "bob"];
       [mk_condition "age" L "30"]] Mock.session0
    = SqlParser.Returns tt s'
    ∧ Mock.calls (SqlParser.m_engine s') =
      [Mock.Remove "t" (DB_ENGINE.mk_attribute "id" "2")].
Proof. eexists. split; reflexivity. Qed.

Example remove_without_condition_is_undefined :
  SqlParser.remove "t" [] Mock.session0 = SqlParser.Undefined
  ∧ SqlParser.remove "t" [[]] Mock.session0 = SqlParser.Undefined.
Proof. split; reflexivity. Qed.

Example create_table_without_primary_key :
  ∃ s' : SqlParser.t Mock.engine,
    SqlParser.create_table "u"
      [mk_column "a" INT false; mk_column "b" BOOL false] Mock.session0
    = SqlParser.Returns tt s'
    ∧ Mock.calls (SqlParser.m_engine s') =
      [Mock.CreateTable "u" "" [INT; BOOL] ["a"; "b"]].
Proof. eexists. split; reflexivity. Qed.

Example create_table_with_two_primary_keys :
  ∃ s' : SqlParser.t Mock.engine,
    SqlParser.create_table "u"
      [mk_column "a" INT true; mk_column "b" (VARCHAR 8) true;
       mk_column "d" FLOAT false] Mock.session0
    = SqlParser.Returns tt s'
    ∧ Mock.calls (SqlParser.m_engine s') =
      [Mock.CreateTable "u" "b" [INT; VARCHAR 8; FLOAT] ["a"; "b"; "d"]].
Proof. eexists. split; reflexivity. Qed.

Example parse_at_eof_leaves_the_session :
  SqlParser.parse (mk_istream false false true "") Mock.session0 =
  SqlParser.Returns ParserResponse_default Mock.session0.
Proof. reflexivity. Qed.

(** * Further properties *)

(** ** Result merger *)

Lemma first_occurrences_length {A : Type} `{EqDecision A} (l : list A) :
  (length (first_occurrences l) ≤ length l)%nat.
Proof.
  induction l as [|x l IH]; simpl; [lia|].
  pose proof (length_filter (λ y, y ≠ x) (first_occurrences l)). lia.
Qed.

Lemma first_occurrences_app {A : Type} `{EqDecision A} (l k : list A) :
  first_occurrences (l ++ k) =
  first_occurrences l ++ first_occurrences (filter (λ b, b ∉ l) k).
Proof.
  induction l as [|x l IH]; simpl.
  - f_equal. symmetry. induction k as [|y k IHk]; [done|].
    rewrite filter_cons_True by apply not_elem_of_nil. by rewrite IHk.
  - f_equal. rewrite IH, filter_app. f_equal.
    rewrite <- first_occurrences_filter, list_filter_filter.
    f_equal. apply list_filter_iff. intros y. rewrite not_elem_of_cons.
    tauto.
Qed.

Lemma merge_records_appended (RecordHash : Record_t → Z)
    (A B : list Record_t) :
  merge_records RecordHash A B =
  A ++ first_occurrences (filter (λ b, b ∉ A) B).
Proof.
  unfold merge_records. simpl.
  apply merge_fold, holds_elements_of_range.
Qed.

(** X1: the vector that [merge_records] returns does not depend on the
    hash function, be it injective or constant. *)
Theorem merge_records_any_hash (hash1 hash2 : Record_t → Z)
    (A B : list Record_t) :
  merge_records hash1 A B = merge_records hash2 A B.
Proof. by rewrite !merge_records_appended. Qed.

(** X2: [merge_records(A, B)] starts with [A] and is not longer than [A]
    and [B] together (the capacity that the function reserves). *)
Theorem merge_records_extends (RecordHash : Record_t → Z)
    (A B : list Record_t) :
  A `prefix_of` merge_records RecordHash A B
  ∧ (length (merge_records RecordHash A B) ≤ length A + length B)%nat.
Proof.
  rewrite merge_records_appended. split.
  - by apply prefix_app_r.
  - rewrite length_app.
    pose proof (first_occurrences_length (filter (λ b, b ∉ A) B)).
    pose proof (length_filter (λ b, b ∉ A) B). lia.
Qed.

(** X3: when no record is repeated within [A], none is repeated in
    [merge_records(A, B)], whatever [B] holds. *)
Theorem merge_records_keeps_NoDup (RecordHash : Record_t → Z)
    (A B : list Record_t) :
  NoDup A → NoDup (merge_records RecordHash A B).
Proof.
  intros HA. rewrite merge_records_appended.
  apply NoDup_app. split; [done|]. split.
  - intros r Hr. rewrite first_occurrences_elem_of, list_elem_of_filter.
    tauto.
  - apply first_occurrences_NoDup.
Qed.

(** X4: a record is in [merge_records(A, B)] exactly when it is in [A] or
    in [B]. *)
Theorem merge_records_holds_both (RecordHash : Record_t → Z)
    (A B : list Record_t) (r : Record_t) :
  r ∈ merge_records RecordHash A B ↔ r ∈ A ∨ r ∈ B.
Proof.
  rewrite merge_records_appended.
  rewrite elem_of_app, first_occurrences_elem_of, list_elem_of_filter.
  destruct (decide (r ∈ A)); tauto.
Qed.

(** X5: when every record of [B] is already in [A], [merge_records(A, B)]
    is [A]; so merging a vector into itself, or merging an empty vector
    in, changes nothing. *)
Theorem merge_records_absorbs (RecordHash : Record_t → Z)
    (A B : list Record_t) :
  B ⊆ A → merge_records RecordHash A B = A.
Proof.
  intros HBA. rewrite merge_records_appended.
  replace (filter (λ b, b ∉ A) B) with (@nil Record_t).
  - apply app_nil_r.
  - symmetry. induction B as [|b B IH]; [done|].
    rewrite filter_cons_False.
    + apply IH. intros x Hx. apply HBA. by right.
    + intros Hb. apply Hb, HBA. by left.
Qed.

Lemma merge_records_NoDup_l (RecordHash : Record_t → Z)
    (A B : list Record_t) :
  NoDup A → merge_records RecordHash A B = first_occurrences (A ++ B).
Proof.
  intros HA. rewrite merge_records_appended, first_occurrences_app.
  by rewrite (first_occurrences_id A HA).
Qed.

(** X6: when no record is repeated within [A], [merge_records(A, B)] is
    the records of [A] followed by [B], each kept at its first occurrence. *)
Theorem merge_records_concat (RecordHash : Record_t → Z)
    (A B : list Record_t) :
  NoDup A → merge_records RecordHash A B = first_occurrences (A ++ B).
Proof. apply merge_records_NoDup_l. Qed.

(** X7: [merge_times(T1, T2)] keeps every entry of [T1] as it was: a
    timing once recorded is not overwritten. *)
Theorem merge_times_keeps_entries (T1 T2 : gmap string Z) :
  T1 ⊆ merge_times T1 T2.
Proof. rewrite merge_times_union. apply map_union_subseteq_l. Qed.

(** X8: merging timings one map after the other is merging their merge,
    and merging the same map in a second time changes nothing. *)
Theorem merge_times_assoc_idemp (T1 T2 T3 : gmap string Z) :
  merge_times (merge_times T1 T2) T3 = merge_times T1 (merge_times T2 T3)
  ∧ merge_times (merge_times T1 T2) T2 = merge_times T1 T2.
Proof.
  rewrite !merge_times_union. split.
  - by rewrite (assoc_L (∪)).
  - rewrite <- (assoc_L (∪)). by rewrite (idemp_L (∪) T2).
Qed.

(** ** [select] and [select_between] *)

Section select_more.
Context {E : Type} `{!DB_ENGINE.DBEngine E}.
Implicit Types (e : E) (tablename : string) (cond : condition_t).



Lemma merge_records_nil_l (RecordHash : Record_t → Z) (B : list Record_t) :
  merge_records RecordHash [] B = first_occurrences B.
Proof.
  rewrite merge_records_appended. simpl. f_equal.
  induction B as [|b B IH]; [done|].
  rewrite filter_cons_True by apply not_elem_of_nil. by rewrite IH.
Qed.

Lemma first_occurrences_absorb {A : Type} `{EqDecision A} (l k : list A) :
  first_occurrences (first_occurrences l ++ k) = first_occurrences (l ++ k).
Proof.
  rewrite !first_occurrences_app.
  rewrite (first_occurrences_id (first_occurrences l))
    by apply first_occurrences_NoDup.
  do 2 f_equal. apply list_filter_iff. intros x.
  by rewrite first_occurrences_elem_of.
Qed.

(** X10: for two AND-groups that both have a key, the loop of [select]
    asks the engine once for each, the second time on the engine as the
    first query left it, and gathers the records of the first answer
    followed by those of the second, each record kept at its first
    occurrence; of two timings under one stage name the first stays. *)
Theorem select_or_loop_two_drivers e tablename (sorted : list string)
    (d1 d2 : list condition_t) (key1 key2 : condition_t)
    (answer1 answer2 : DB_ENGINE.QueryResponse) (e1 e2 : E) :
  fst (SqlParser.select_and_loop e tablename d1) = key1 →
  column_name key1 ≠ "" →
  SqlParser.index_query e tablename key1
    (SqlParser.residual e tablename d1) sorted = (answer1, e1) →
  fst (SqlParser.select_and_loop e1 tablename d2) = key2 →
  column_name key2 ≠ "" →
  SqlParser.index_query e1 tablename key2
    (SqlParser.residual e1 tablename d2) sorted = (answer2, e2) →
  SqlParser.select_or_loop e tablename sorted
    DB_ENGINE.QueryResponse_default [d1; d2] =
  (SqlParser.Continue,
   DB_ENGINE.mk_response
     (first_occurrences
        (DB_ENGINE.records answer1 ++ DB_ENGINE.records answer2))
     (DB_ENGINE.query_times answer1 ∪ DB_ENGINE.query_times answer2),
   e2).
Proof.
  intros Hkey1 Hname1 Hq1 Hkey2 Hname2 Hq2. simpl.
  rewrite (select_or_step_named_key e tablename sorted _ d1 key1) by done.
  rewrite Hq1. simpl.
  rewrite (select_or_step_named_key e1 tablename sorted _ d2 key2) by done.
  rewrite Hq2. simpl. unfold SqlParser.merged. simpl.
  rewrite !merge_times_union, (left_id_L ∅ (∪)).
  rewrite merge_records_nil_l.
  rewrite merge_records_NoDup_l by apply first_occurrences_NoDup.
  by rewrite first_occurrences_absorb.
Qed.

Lemma select_or_loop_invariant e tablename (sorted : list string)
    (query_response gathered : DB_ENGINE.QueryResponse)
    (groups : list (list condition_t)) (e1 : E) :
  SqlParser.select_or_loop e tablename sorted query_response groups =
  (SqlParser.Continue, gathered, e1) →
  DB_ENGINE.records query_response `prefix_of` DB_ENGINE.records gathered
  ∧ DB_ENGINE.query_times query_response ⊆ DB_ENGINE.query_times gathered
  ∧ (NoDup (DB_ENGINE.records query_response) →
     NoDup (DB_ENGINE.records gathered)).
Proof.
  revert e query_response.
  induction groups as [|d groups IH]; intros e query_response Hrun.
  - simpl in Hrun. injection Hrun as -> _. done.
  - simpl in Hrun. unfold SqlParser.select_or_step in Hrun.
    destruct (SqlParser.select_and_loop e tablename d) as [key lambdas].
    destruct (String.eqb (column_name key) "").
    { destruct (DB_ENGINE.load _ _ _ _). discriminate. }
    destruct (SqlParser.index_query _ _ _ _ _) as [answer e'].
    apply IH in Hrun as (Hprefix & Htimes & Hnodup). simpl in *.
    split; [|split].
    + etrans; [|exact Hprefix].
      rewrite merge_records_appended. by apply prefix_app_r.
    + etrans; [|exact Htimes].
      rewrite merge_times_union. apply map_union_subseteq_l.
    + intros Hqr. apply Hnodup.
      rewrite merge_records_appended.
      apply NoDup_app. split; [done|]. split.
      * intros r Hr.
        rewrite first_occurrences_elem_of, list_elem_of_filter. tauto.
      * apply first_occurrences_NoDup.
Qed.

(** X11: while the loop of [select] is not left by [break], the records
    and the timings gathered so far stay: the records remain, in their
    order, the beginning of what is gathered later, and no timing entry is
    changed or removed. *)
Theorem select_or_loop_accumulates e tablename (sorted : list string)
    (query_response gathered : DB_ENGINE.QueryResponse)
    (groups : list (list condition_t)) (e1 : E) :
  SqlParser.select_or_loop e tablename sorted query_response groups =
  (SqlParser.Continue, gathered, e1) →
  DB_ENGINE.records query_response `prefix_of` DB_ENGINE.records gathered
  ∧ DB_ENGINE.query_times query_response ⊆ DB_ENGINE.query_times gathered.
Proof.
  intros Hrun.
  destruct (select_or_loop_invariant _ _ _ _ _ _ _ Hrun) as (? & ? & _).
  done.
Qed.

(** X12: a [select] with a WHERE clause whose loop is not left by
    [break] (every AND-group had a key) emits no record twice, whatever
    the engine answered. *)
Theorem select_index_driven_NoDup tablename (cols : list string)
    (groups : list (list condition_t)) (s s' : SqlParser.t E) :
  groups ≠ [] →
  (SqlParser.select_or_loop (SqlParser.m_engine s) tablename
     (DB_ENGINE.sort_attributes (SqlParser.m_engine s) tablename cols)
     DB_ENGINE.QueryResponse_default groups).1.1 = SqlParser.Continue →
  SqlParser.select tablename cols groups s = SqlParser.Returns tt s' →
  NoDup (records (SqlParser.m_parser_response s')).
Proof.
  intros Hgroups Hctl. unfold SqlParser.select.
  destruct (SqlParser.some_column_missing _ _); [discriminate|].
  destruct groups as [|d groups]; [done|].
  destruct (SqlParser.select_or_loop _ _ _ _ _) as [[ctl gathered] e1]
    eqn:Hrun.
  simpl in Hctl. subst ctl. intros [= <-]. simpl.
  destruct (select_or_loop_invariant _ _ _ _ _ _ _ Hrun) as (_ & _ & Hnodup).
  apply Hnodup. constructor.
Qed.

Lemma some_column_missing_true (table_attributes cols : list string) :
  SqlParser.some_column_missing table_attributes cols = true ↔
  ∃ col, col ∈ cols ∧ col ∉ table_attributes.
Proof.
  unfold SqlParser.some_column_missing, SqlParser.found.
  rewrite existsb_exists. split.
  - intros (col & Hin & Hcol). exists col.
    apply list_elem_of_In in Hin. split; [done|].
    apply negb_true_iff in Hcol. by apply bool_decide_eq_false in Hcol.
  - intros (col & Hin & Hcol). exists col.
    split; [by apply list_elem_of_In|].
    apply negb_true_iff. by apply bool_decide_eq_false.
Qed.

Lemma some_column_missing_false (table_attributes cols : list string) :
  SqlParser.some_column_missing table_attributes cols = false ↔
  Forall (λ col, col ∈ table_attributes) cols.
Proof.
  rewrite Forall_forall, <- not_true_iff_false, some_column_missing_true.
  split.
  - intros Hno col Hcol.
    destruct (decide (col ∈ table_attributes)) as [|Hmiss]; [done|].
    destruct Hno. by exists col.
  - intros Hall (col & Hcol & Hmiss). by apply Hmiss, Hall.
Qed.


(** X14: [clear()] before a [select] that returns is without effect on
    the session that the [select] leaves; before one that throws, the
    cleared session is what remains. *)
Theorem select_after_clear tablename (cols : list string)
    (constraints : list (list condition_t)) (s : SqlParser.t E) :
  SqlParser.select tablename cols constraints (SqlParser.clear s) =
  match SqlParser.select tablename cols constraints s with
  | SqlParser.Returns a s' => SqlParser.Returns a s'
  | SqlParser.Throws what s0 => SqlParser.Throws what (SqlParser.clear s0)
  | SqlParser.Undefined => SqlParser.Undefined
  end.
Proof.
  unfold SqlParser.select. simpl.
  destruct (SqlParser.some_column_missing _ _); [done|].
  destruct constraints as [|d rest].
  - by destruct (DB_ENGINE.load _ _ _ _).
  - by destruct (SqlParser.select_or_loop _ _ _ _ _) as [[ctl qr] e'].
Qed.

(** X15: the column check of [select] reads the list that
    [sort_attributes] returned and the one of [select_between] the list
    that was requested: for a requested column that is not an attribute, on
    an engine whose [sort_attributes] returns attributes only, [select]
    returns and [select_between] throws. *)
Theorem select_checks_sorted_columns tablename (cols : list string)
    (constraints : list (list condition_t)) (id val1 val2 col : string)
    (s : SqlParser.t E) :
  col ∈ cols →
  col ∉ DB_ENGINE.get_table_attributes (SqlParser.m_engine s) tablename →
  Forall
    (λ a, a ∈ DB_ENGINE.get_table_attributes (SqlParser.m_engine s)
                tablename)
    (DB_ENGINE.sort_attributes (SqlParser.m_engine s) tablename cols) →
  (∃ s' : SqlParser.t E,
     SqlParser.select tablename cols constraints s = SqlParser.Returns tt s')
  ∧ SqlParser.select_between tablename cols id val1 val2 s =
    SqlParser.Throws "Column doesn't exists" s.
Proof.
  intros Hcol Hmiss Hsorted. split.
  - unfold SqlParser.select.
    apply some_column_missing_false in Hsorted. rewrite Hsorted.
    destruct constraints as [|d rest].
    + destruct (DB_ENGINE.load _ _ _ _) as [qr e']. by eexists.
    + destruct (SqlParser.select_or_loop _ _ _ _ _) as [[ctl qr] e'].
      by eexists.
  - unfold SqlParser.select_between.
    assert (SqlParser.some_column_missing
              (DB_ENGINE.get_table_attributes (SqlParser.m_engine s)
                 tablename) cols = true) as ->; [|done].
    apply some_column_missing_true. by exists col.
Qed.


(** When [select_between] does not throw it returns, and the response it
    emits is the answer of one [range_search] between the two values on
    the range column, without predicate. *)
Lemma select_between_range_search tablename (cols : list string)
    (id val1 val2 : string) (s : SqlParser.t E) :
  Forall
    (λ col, col ∈ DB_ENGINE.get_table_attributes (SqlParser.m_engine s)
                    tablename) cols →
  ∃ s' : SqlParser.t E,
    SqlParser.select_between tablename cols id val1 val2 s =
    SqlParser.Returns tt s'
    ∧ (DB_ENGINE.mk_response
         (records (SqlParser.m_parser_response s'))
         (query_times (SqlParser.m_parser_response s')),
       SqlParser.m_engine s') =
      DB_ENGINE.range_search (SqlParser.m_engine s) tablename
        (DB_ENGINE.mk_attribute id val1) (DB_ENGINE.mk_attribute id val2)
        None cols.
Proof.
  intros Hcols. apply some_column_missing_false in Hcols.
  unfold SqlParser.select_between. rewrite Hcols.
  destruct (DB_ENGINE.range_search _ _ _ _ _ _) as [[recs times] e'].
  by eexists.
Qed.

End select_more.

(** ** The other callbacks *)

Lemma string_length_append (p q : string) :
  String.length (p +:+ q) = (String.length p + String.length q)%nat.
Proof. induction p as [|a p IH]; simpl; [done|]. by rewrite IH. Qed.

Lemma substring_prefix (p q : string) :
  String.substring 0 (String.length p) (p +:+ q) = p.
Proof.
  induction p as [|a p IH]; simpl.
  - by destruct q.
  - by rewrite IH.
Qed.

Lemma substring_none (n : nat) (q : string) :
  String.substring n 0 q = "".
Proof.
  revert q. induction n as [|n IH]; intros q; destruct q; simpl; try done.
Qed.

Section callbacks_more.
Context {E : Type} `{!DB_ENGINE.DBEngine E}.

(** X17: [insert] undoes a reversal: given the values of the statement in
    reverse, as the grammar hands them over, it passes them to the
    engine's [add] in the order of the statement. *)
Theorem insert_restores_order (tablename : string) (values : list string)
    (s : SqlParser.t E) :
  SqlParser.insert tablename (rev values) s =
  SqlParser.Returns tt
    (SqlParser.set_engine s
       (DB_ENGINE.add (SqlParser.m_engine s) tablename values)).
Proof.
  unfold SqlParser.insert.
  rewrite copy_reverse_range_take, take_ge by lia.
  by rewrite rev_involutive.
Qed.

(** X18: when some column is marked as primary key, the primary key that
    [create_table] hands to the engine is the name of a marked column of
    the list. *)
Theorem create_table_primary_key_is_marked (tablename : string)
    (columns : list column_t) (s : SqlParser.t E) :
  Exists (λ col, is_pk col = true) columns →
  ∃ col : column_t,
    col ∈ columns ∧ is_pk col = true
    ∧ SqlParser.create_table tablename columns s =
      SqlParser.Returns tt
        (SqlParser.set_engine s
           (DB_ENGINE.create_table (SqlParser.m_engine s) tablename
              (name col) (type <$> columns) (name <$> columns))).
Proof.
  intros Hmarked. unfold SqlParser.create_table.
  rewrite create_table_fold.
  destruct (last (filter (λ col, is_pk col = true) columns)) as [col|]
    eqn:Hlast.
  - exists col. apply last_Some_elem_of in Hlast.
    apply list_elem_of_filter in Hlast as [Hpk Hin]. done.
  - apply last_None in Hlast.
    apply Exists_exists in Hmarked as (col & Hin & Hpk).
    assert (col ∈ filter (λ col, is_pk col = true) columns) as Hcol.
    { by apply list_elem_of_filter. }
    rewrite Hlast in Hcol. by apply elem_of_nil in Hcol.
Qed.



(** X21: [insert_from_file] drops the first and the last character of
    the file name, whatever they are, and hands what is between them to
    the engine's [csv_insert]. *)
Theorem insert_from_file_strips_both_ends (tablename : string)
    (first last : Ascii.ascii) (path : string) (s : SqlParser.t E) :
  Z.of_nat (String.length path) + 2 < 2 ^ 64 →
  SqlParser.insert_from_file tablename
    (String first (path +:+ String last "")) s =
  Some
    (SqlParser.Returns tt
       (SqlParser.set_engine s
          (DB_ENGINE.csv_insert (SqlParser.m_engine s) tablename path))).
Proof.
  intros Hsize. unfold SqlParser.insert_from_file, substr, size_t_sub.
  cbn [String.length]. rewrite string_length_append. cbn [String.length].
  set (n := String.length path) in *.
  replace (Z.of_nat (S (n + 1)) - 2) with (Z.of_nat n) by lia.
  rewrite Z.mod_small by lia.
  destruct (Z.ltb_spec (Z.of_nat (S (n + 1))) 1) as [Hlt|_]; [lia|].
  rewrite Z.min_l by lia.
  replace (Z.to_nat 1) with 1%nat by done.
  rewrite Nat2Z.id. cbn [String.substring].
  subst n. by rewrite substring_prefix.
Qed.

(** X22: on the empty file name, and on no other, [insert_from_file]
    ends by [std::out_of_range] before the engine is called; on a file
    name of one character it calls [csv_insert] with the empty path. *)
Theorem insert_from_file_short_names (tablename filename : string)
    (only : Ascii.ascii) (s : SqlParser.t E) :
  (SqlParser.insert_from_file tablename filename s = None ↔ filename = "")
  ∧ SqlParser.insert_from_file tablename (String only "") s =
    Some
      (SqlParser.Returns tt
         (SqlParser.set_engine s
            (DB_ENGINE.csv_insert (SqlParser.m_engine s) tablename ""))).
Proof.
  split; [|reflexivity].
  unfold SqlParser.insert_from_file, substr.
  destruct filename as [|a rest].
  - done.
  - cbn [String.length].
    destruct (Z.ltb_spec (Z.of_nat (S (String.length rest))) 1) as [Hlt|_];
      [lia|].
    split; discriminate.
Qed.

End callbacks_more.

(** ** [parse] on a file name *)

(** X23: on a path whose stream is good after opening, [parse] on the file
    name ends as [parse] on that stream does (it returns nothing where the
    latter returns the response); on any other path, also one whose
    stream has only [eofbit] set, it ends the process with
    [EXIT_FAILURE] and the parser is not run. *)
Theorem parse_file_as_parse_stream {E : Type} `{!DB_ENGINE.DBEngine E}
    `{!SqlParser.Grammar E} `{!FileSystem} (path : string)
    (s : SqlParser.t E) :
  SqlParser.parse_file (Some path) s =
  if good (ifstream path) then
    SqlParser.Ends
      match SqlParser.parse (ifstream path) s with
      | SqlParser.Returns _ s' => SqlParser.Returns tt s'
      | SqlParser.Throws what s' => SqlParser.Throws what s'
      | SqlParser.Undefined => SqlParser.Undefined
      end
  else SqlParser.Exits EXIT_FAILURE.
Proof.
  unfold SqlParser.parse_file, SqlParser.parse.
  destruct (good (ifstream path)) eqn:Hgood; simpl; [|done].
  by destruct (SqlParser.parse_helper (ifstream path) s) as [[] s'|what s'|].
Qed.

(** ** The further properties at work on the mock engine *)

Lemma merge_records_keeps_NoDup_witness :
  NoDup (merge_records Mock.hash
           [["1"; "ann"]; ["2"; "bob"]]
           [["2"; "bob"]; ["3"; "cy"]; ["3"; "cy"]]).
Proof.
  apply (merge_records_keeps_NoDup Mock.hash
           [["1"; "ann"]; ["2"; "bob"]]
           [["2"; "bob"]; ["3"; "cy"]; ["3"; "cy"]]).
  compute_done.
Defined.

Lemma merge_records_absorbs_witness :
  merge_records Mock.hash [["1"; "ann"]; ["2"; "bob"]]
    [["2"; "bob"]; ["2"; "bob"]; ["1"; "ann"]]
  = [["1"; "ann"]; ["2"; "bob"]].
Proof.
  apply (merge_records_absorbs Mock.hash [["1"; "ann"]; ["2"; "bob"]]
           [["2"; "bob"]; ["2"; "bob"]; ["1"; "ann"]]).
  intros r Hr. repeat (apply elem_of_cons in Hr as [->|Hr]).
  - apply list_elem_of_further, list_elem_of_here.
  - apply list_elem_of_further, list_elem_of_here.
  - apply list_elem_of_here.
  - by apply elem_of_nil in Hr.
Defined.

Lemma merge_records_concat_witness :
  merge_records Mock.hash [["1"; "ann"]; ["2"; "bob"]]
    [["3"; "cy"]; ["2"; "bob"]; ["3"; "cy"]]
  = first_occurrences
      ([["1"; "ann"]; ["2"; "bob"]]
         ++ [["3"; "cy"]; ["2"; "bob"]; ["3"; "cy"]]).
Proof.
  apply (merge_records_concat Mock.hash [["1"; "ann"]; ["2"; "bob"]]
           [["3"; "cy"]; ["2"; "bob"]; ["3"; "cy"]]).
  compute_done.
Defined.

(** [id = 1 OR age >= 30]: the first answer is (1, ann, 30), the second
    (1, ann, 30) and (3, cy, 30). *)
Lemma select_or_loop_two_drivers_witness :
  (SqlParser.select_or_loop Mock.people "t" ["id"; "name"; "age"]
     DB_ENGINE.QueryResponse_default
     [[mk_condition "id" EQUAL "1"]; [mk_condition "age" GE "30"]]).1
  = (SqlParser.Continue,
     DB_ENGINE.mk_response
       (first_occurrences
          ([["1"; "ann"; "30"]]
             ++ [["1"; "ann"; "30"]; ["3"; "cy"; "30"]]))
       ({[ "search" := 2 ]} ∪ {[ "range_search" := 3 ]})).
Proof.
  eapply eq_trans.
  { apply (f_equal fst).
    eapply (select_or_loop_two_drivers Mock.people "t"
              ["id"; "name"; "age"]
              [mk_condition "id" EQUAL "1"] [mk_condition "age" GE "30"]
              (mk_condition "id" EQUAL "1") (mk_condition "age" GE "30")).
    - reflexivity.
    - discriminate.
    - reflexivity.
    - reflexivity.
    - discriminate.
    - reflexivity. }
  reflexivity.
Defined.

Lemma select_or_loop_accumulates_witness :
  DB_ENGINE.records
    (DB_ENGINE.mk_response [["2"; "bob"; "25"]] {[ "search" := 7 ]})
  `prefix_of`
    DB_ENGINE.records
      (SqlParser.select_or_loop Mock.people "t" ["id"; "name"; "age"]
         (DB_ENGINE.mk_response [["2"; "bob"; "25"]] {[ "search" := 7 ]})
         [[mk_condition "id" EQUAL "1"]]).1.2
  ∧ DB_ENGINE.query_times
      (DB_ENGINE.mk_response [["2"; "bob"; "25"]] {[ "search" := 7 ]})
    ⊆ DB_ENGINE.query_times
        (SqlParser.select_or_loop Mock.people "t" ["id"; "name"; "age"]
           (DB_ENGINE.mk_response [["2"; "bob"; "25"]] {[ "search" := 7 ]})
           [[mk_condition "id" EQUAL "1"]]).1.2.
Proof.
  apply (select_or_loop_accumulates Mock.people "t" ["id"; "name"; "age"]
           (DB_ENGINE.mk_response [["2"; "bob"; "25"]] {[ "search" := 7 ]})
           (SqlParser.select_or_loop Mock.people "t" ["id"; "name"; "age"]
              (DB_ENGINE.mk_response [["2"; "bob"; "25"]]
                 {[ "search" := 7 ]})
              [[mk_condition "id" EQUAL "1"]]).1.2
           [[mk_condition "id" EQUAL "1"]]
           (SqlParser.select_or_loop Mock.people "t" ["id"; "name"; "age"]
              (DB_ENGINE.mk_response [["2"; "bob"; "25"]]
                 {[ "search" := 7 ]})
              [[mk_condition "id" EQUAL "1"]]).2).
  reflexivity.
Defined.

Lemma select_index_driven_NoDup_witness :
  ∃ s' : SqlParser.t Mock.engine,
    SqlParser.select "t" ["id"; "name"; "age"]
      [[mk_condition "id" EQUAL "1"]; [mk_condition "age" GE "30"]]
      Mock.session0 = SqlParser.Returns tt s'
    ∧ NoDup (records (SqlParser.m_parser_response s')).
Proof.
  eexists. split; [reflexivity|].
  eapply (select_index_driven_NoDup "t" ["id"; "name"; "age"]
            [[mk_condition "id" EQUAL "1"]; [mk_condition "age" GE "30"]]
            Mock.session0).
  - discriminate.
  - reflexivity.
  - reflexivity.
Defined.

(** [zip] is not a column of the table: [select] drops it, with the mock
    engine's [sort_attributes], and [select_between] throws. *)
Lemma select_checks_sorted_columns_witness :
  (∃ s' : SqlParser.t Mock.engine,
     SqlParser.select "t" ["name"; "zip"] [] Mock.session0 =
     SqlParser.Returns tt s')
  ∧ SqlParser.select_between "t" ["name"; "zip"] "id" "1" "2"
      Mock.session0 =
    SqlParser.Throws "Column doesn't exists" Mock.session0.
Proof.
  apply (select_checks_sorted_columns "t" ["name"; "zip"] [] "id" "1" "2"
           "zip" Mock.session0).
  - compute_done.
  - compute_done.
  - compute_done.
Defined.

Lemma create_table_primary_key_is_marked_witness :
  ∃ col : column_t,
    col ∈ [mk_column "a" INT true; mk_column "b" BOOL true;
           mk_column "d" FLOAT false]
    ∧ is_pk col = true
    ∧ SqlParser.create_table "u"
        [mk_column "a" INT true; mk_column "b" BOOL true;
         mk_column "d" FLOAT false] Mock.session0 =
      SqlParser.Returns tt
        (SqlParser.set_engine Mock.session0
           (DB_ENGINE.create_table (SqlParser.m_engine Mock.session0) "u"
              (name col)
              (type <$> [mk_column "a" INT true; mk_column "b" BOOL true;
                         mk_column "d" FLOAT false])
              (name <$> [mk_column "a" INT true; mk_column "b" BOOL true;
                         mk_column "d" FLOAT false]))).
Proof.
  apply (create_table_primary_key_is_marked "u"
           [mk_column "a" INT true; mk_column "b" BOOL true;
            mk_column "d" FLOAT false] Mock.session0).
  apply Exists_cons_hd. reflexivity.
Defined.

Lemma insert_from_file_strips_both_ends_witness :
  SqlParser.insert_from_file "t" "'people.csv'" Mock.session0 =
  Some
    (SqlParser.Returns tt
       (SqlParser.set_engine Mock.session0
          (DB_ENGINE.csv_insert (SqlParser.m_engine Mock.session0) "t"
             "people.csv"))).
Proof.
  apply (insert_from_file_strips_both_ends "t" _ _ "people.csv"
           Mock.session0).
  reflexivity.
Defined.

Example parse_file_on_the_mock_files :
  SqlParser.parse_file (Some "empty.sql") Mock.session0 =
  SqlParser.Ends
    (SqlParser.Returns tt
       (SqlParser.set_parser
          (SqlParser.set_sc Mock.session0
             (new_scanner (ifstream "empty.sql")))
          (new_parser (new_scanner (ifstream "empty.sql")))))
  ∧ SqlParser.parse_file (Some "at_end.sql") Mock.session0 =
    SqlParser.Exits EXIT_FAILURE
  ∧ SqlParser.parse (ifstream "at_end.sql") Mock.session0 =
    SqlParser.Returns ParserResponse_default Mock.session0
  ∧ SqlParser.parse_file (Some "missing.sql") Mock.session0 =
    SqlParser.Exits EXIT_FAILURE
  ∧ SqlParser.parse_file None Mock.session0 = SqlParser.Aborts.
Proof. repeat split. Qed.
